(** * DistributedCacheLRU: the LRU store, the cache nodes and the shard manager

    A shallow embedding of [src/LRUCache.cpp] (classes [LRUCache],
    [CacheNode] and [ShardManager]) and the properties of its
    specification.

    Modelling decisions, all read off the C++ source:

    - [std::list<pair<string,string>>] is a list of cells; every cell carries
      the address of its list node (a [handle]).  A [std::list] iterator is
      such an address: it stays valid, and keeps naming the same node, while
      the node is spliced to another position.
    - [std::unordered_map<string, iterator>] is a [gmap string handle].
    - [CacheNode*] is an address into a heap of nodes, so that two entries of
      the manager's vectors may name the same node.
    - operations whose C++ behaviour is undefined on some inputs ([back] of
      an empty list, [%] by zero, [operator[]] out of range, a dangling
      iterator or pointer) return [Undefined] there.
    - the [shared_mutex] is not modelled: every operation is one atomic step.
    - [std::hash<string>] is implementation defined; it is a parameter. *)

From Stdlib Require Import NArith DecimalString.
From stdpp Require Import base option list gmap strings fin_maps.

Open Scope string_scope.
Open Scope nat_scope.
Open Scope list_scope.

(** ** Outcome of a call *)

Inductive ub : Set :=
  | BackOfEmptyList
  | DanglingIterator
  | DanglingPointer
  | ModuloByZero
  | IndexOutOfRange.

Inductive outcome (A : Type) : Type :=
  | Returns (a : A)
  | Undefined (why : ub).
Arguments Returns {A} a.
Arguments Undefined {A} why.

#[global] Instance outcome_ret : MRet outcome := @Returns.
#[global] Instance outcome_bind : MBind outcome := λ A B f c,
  match c with
  | Returns a => f a
  | Undefined why => Undefined why
  end.
#[global] Instance outcome_fmap : FMap outcome := λ A B f c,
  match c with
  | Returns a => Returns (f a)
  | Undefined why => Undefined why
  end.

Definition defined {A} (c : outcome A) : Prop :=
  match c with Returns _ => True | Undefined _ => False end.

(** ** The two sentinels *)

Definition MISS : string := "[MISS]".
Definition MISS_DB : string := "[MISS:DB fallback required]".

(** ** class LRUCache *)

Abbreviation handle := nat (only parsing).
Abbreviation entry := (string * string)%type (only parsing).
Abbreviation cell := (handle * entry)%type (only parsing).

Record LRUCache : Type := mkLRUCache {
  capacity : nat;
  lruList : list cell;
  cacheMap : gmap string handle
}.

(** [LRUCache(size_t cap) : capacity(cap) {}] *)
Definition LRUCache_new (cap : nat) : LRUCache :=
  {| capacity := cap; lruList := []; cacheMap := ∅ |}.

(** The node behind iterator [it], unlinked from the list. *)
Fixpoint unlink (it : handle) (l : list cell) : option (cell * list cell) :=
  match l with
  | [] => None
  | c :: l' =>
      if decide (c.1 = it) then Some (c, l')
      else '(x, r) ← unlink it l'; Some (x, c :: r)
  end.

(** [l.splice(l.begin(), l, it)]: the node of [it] is relinked at the front;
    no node is created or destroyed. *)
Definition splice_front (it : handle) (l : list cell) : outcome (list cell) :=
  match unlink it l with
  | Some (x, r) => Returns (x :: r)
  | None => Undefined DanglingIterator
  end.

(** [it->second] *)
Definition deref_second (it : handle) (l : list cell) : outcome string :=
  match list_find (λ c : cell, c.1 = it) l with
  | Some (_, c) => Returns c.2.2
  | None => Undefined DanglingIterator
  end.

(** [it->second = value] *)
Definition assign_second (it : handle) (value : string) (l : list cell)
  : outcome (list cell) :=
  match list_find (λ c : cell, c.1 = it) l with
  | Some (i, c) => Returns (<[i := (c.1, (c.2.1, value))]> l)
  | None => Undefined DanglingIterator
  end.

(** The address of a newly allocated list node: one no linked node has. *)
Definition fresh_handle (l : list cell) : handle :=
  S (foldr Nat.max 0 (l.*1)).

(** [l.back()] *)
Definition back (l : list cell) : outcome cell :=
  match last l with
  | Some c => Returns c
  | None => Undefined BackOfEmptyList
  end.

(** [l.pop_back()], called on a list that [back] found non-empty. *)
Definition pop_back (l : list cell) : list cell := removelast l.

(** [string get(const string& key)] *)
Definition get (s : LRUCache) (key : string) : outcome (string * LRUCache) :=
  match cacheMap s !! key with
  | None => Returns (MISS, s)
  | Some it =>
      l ← splice_front it (lruList s);
      v ← deref_second it l;
      Returns (v, {| capacity := capacity s; lruList := l;
                     cacheMap := cacheMap s |})
  end.

(** [void put(const string& key, const string& value)] *)
Definition put (s : LRUCache) (key value : string) : outcome LRUCache :=
  match cacheMap s !! key with
  | Some it =>
      l ← splice_front it (lruList s);
      l' ← assign_second it value l;
      Returns {| capacity := capacity s; lruList := l';
                 cacheMap := cacheMap s |}
  | None =>
      '(l, m) ← (if decide (capacity s ≤ length (lruList s)) then
                   last ← back (lruList s);
                   Returns (pop_back (lruList s), delete last.2.1 (cacheMap s))
                 else Returns (lruList s, cacheMap s));
      let it := fresh_handle l in
      Returns {| capacity := capacity s; lruList := (it, (key, value)) :: l;
                 cacheMap := <[key := it]> m |}
  end.

(** *** What a store holds, and its representation invariant *)

(** The ordered sequence of entries, most recently used first. *)
Definition entries (s : LRUCache) : list entry := (lruList s).*2.

(** The keys a store holds, each with its value. *)
Definition contents (s : LRUCache) : gmap string string :=
  list_to_map (entries s).

(** Size within capacity, keys unique, list nodes at distinct addresses, and
    the index naming exactly the linked nodes, each under its own key. *)
Record Inv (s : LRUCache) : Prop := mkInv {
  inv_size : length (lruList s) ≤ capacity s;
  inv_keys : NoDup ((entries s).*1);
  inv_nodes : NoDup ((lruList s).*1);
  inv_index : ∀ k it,
    cacheMap s !! k = Some it ↔ ∃ v, (it, (k, v)) ∈ lruList s
}.

(** *** The store as section 4.1 of the specification words it *)

Definition spec_find (l : list entry) (key : string) : option string :=
  snd <$> (snd <$> list_find (λ e : entry, e.1 = key) l).

Definition spec_drop (l : list entry) (key : string) : list entry :=
  filter (λ e : entry, e.1 ≠ key) l.

(** Absent: the miss sentinel.  Present: promoted to the head, value
    returned. *)
Definition spec_get (l : list entry) (key : string) : string * list entry :=
  match spec_find l key with
  | None => (MISS, l)
  | Some v => (v, (key, v) :: spec_drop l key)
  end.

(** Present: value updated, promoted to the head.  Absent: the tail entry
    is evicted first when the store is at capacity, then the new entry is
    inserted at the head. *)
Definition spec_put (cap : nat) (l : list entry) (key value : string)
  : list entry :=
  match spec_find l key with
  | Some _ => (key, value) :: spec_drop l key
  | None =>
      (key, value) :: (if decide (cap ≤ length l) then removelast l else l)
  end.

(** *** Sequences of operations on one store *)

Inductive op : Set :=
  | Get (key : string)
  | Put (key value : string).

Definition step (s : LRUCache) (o : op) : outcome LRUCache :=
  match o with
  | Get key => snd <$> get s key
  | Put key value => put s key value
  end.

Fixpoint run (s : LRUCache) (os : list op) : outcome LRUCache :=
  match os with
  | [] => Returns s
  | o :: os' => s' ← step s o; run s' os'
  end.

(** ** class CacheNode *)

Record CacheNode : Type := mkCacheNode {
  nodeId : string;
  isPrimary : bool;
  cache : LRUCache
}.

(** The constructor; its call of [registerWithZookeeper] talks to the
    discovery service only and leaves the node as built here. *)
Definition CacheNode_new (id : string) (primary : bool) (size : nat)
  : CacheNode :=
  {| nodeId := id; isPrimary := primary; cache := LRUCache_new size |}.

Definition with_cache (n : CacheNode) (c : LRUCache) : CacheNode :=
  {| nodeId := nodeId n; isPrimary := isPrimary n; cache := c |}.

(** [string retrieve(const string& key)] *)
Definition CacheNode_retrieve (n : CacheNode) (key : string)
  : outcome (string * CacheNode) :=
  '(v, c) ← get (cache n) key; Returns (v, with_cache n c).

(** [void insert(const string& key, const string& value)] *)
Definition CacheNode_insert (n : CacheNode) (key value : string)
  : outcome CacheNode :=
  c ← put (cache n) key value; Returns (with_cache n c).

(** ** The nodes a [CacheNode*] may point to *)

Abbreviation ptr := nat (only parsing).

(** [p->retrieve(key)] *)
Definition ptr_retrieve (h : gmap ptr CacheNode) (p : ptr) (key : string)
  : outcome (string * gmap ptr CacheNode) :=
  match h !! p with
  | None => Undefined DanglingPointer
  | Some n => '(v, n') ← CacheNode_retrieve n key; Returns (v, <[p := n']> h)
  end.

(** [p->insert(key, value)] *)
Definition ptr_insert (h : gmap ptr CacheNode) (p : ptr) (key value : string)
  : outcome (gmap ptr CacheNode) :=
  match h !! p with
  | None => Undefined DanglingPointer
  | Some n => n' ← CacheNode_insert n key value; Returns (<[p := n']> h)
  end.

(** What node [p] answers when it is asked for [key] in heap [h]. *)
Definition local_answer (h : gmap ptr CacheNode) (p : ptr) (key : string)
  : outcome string :=
  fst <$> ptr_retrieve h p key.

(** [v[i]] on a [std::vector]: unchecked. *)
Definition at_ {A} (v : list A) (i : nat) : outcome A :=
  match v !! i with
  | Some x => Returns x
  | None => Undefined IndexOutOfRange
  end.

(** ** class ShardManager *)

Record ShardManager : Type := mkShardManager {
  primaries : list ptr;
  replicas : list (list ptr);
  primaryStatus : list bool
}.

Definition ShardManager_new : ShardManager :=
  {| primaries := []; replicas := []; primaryStatus := [] |}.

(** [void registerPrimary(CacheNode* node)] *)
Definition registerPrimary (m : ShardManager) (node : ptr) : ShardManager :=
  {| primaries := primaries m ++ [node];
     replicas := replicas m;
     primaryStatus := primaryStatus m ++ [true] |}.

(** The largest [int]. *)
Definition INT_MAX : Z := 2147483647.

(** [void registerReplicas(int index, vector<CacheNode*> replicaList)], for
    [0 <= index < INT_MAX].  Outside this range the source does not behave
    as written here, and what it does there is not modelled: at [INT_MAX]
    the sum [index + 1] overflows in [int], and a negative [index] is
    converted to [size_t] by the comparison, so that the vector is resized
    by a converted negative number and then indexed out of range.  The
    statements below about the replica vector after a call carry this
    bound. *)
Definition registerReplicas (m : ShardManager) (index : nat)
    (replicaList : list ptr) : ShardManager :=
  let rs := if decide (length (replicas m) ≤ index)
            then resize (index + 1) [] (replicas m) else replicas m in
  {| primaries := primaries m;
     replicas := <[index := replicaList]> rs;
     primaryStatus := primaryStatus m |}.

(** [cout << idx] *)
Definition decimal (n : nat) : string := NilEmpty.string_of_uint (Nat.to_uint n).

(** [void disablePrimary(size_t idx)]: the manager afterwards and the lines
    written to [cout]. *)
Definition disablePrimary (m : ShardManager) (idx : nat)
  : ShardManager * list string :=
  if decide (idx < length (primaryStatus m)) then
    ({| primaries := primaries m;
        replicas := replicas m;
        primaryStatus := <[idx := false]> (primaryStatus m) |},
     ["[WARNING] Primary shard " +:+ decimal idx +:+ " is DOWN!"])
  else (m, []).

Section Sharding.

(** [hash<string>] *)
Variable hasher : string → N.

(** [size_t getShardIndex(const string& key)] *)
Definition getShardIndex (m : ShardManager) (key : string) : outcome nat :=
  if decide (length (primaries m) = 0) then Undefined ModuloByZero
  else Returns (N.to_nat (hasher key mod N.of_nat (length (primaries m)))).

(** [for (auto* replica : rs) replica->insert(key, value);] *)
Fixpoint insert_each (h : gmap ptr CacheNode) (rs : list ptr)
    (key value : string) : outcome (gmap ptr CacheNode) :=
  match rs with
  | [] => Returns h
  | replica :: rs' =>
      h' ← ptr_insert h replica key value; insert_each h' rs' key value
  end.

(** [void insert(const string& key, const string& value)] *)
Definition insert (h : gmap ptr CacheNode) (m : ShardManager)
    (key value : string) : outcome (gmap ptr CacheNode) :=
  idx ← getShardIndex m key;
  alive ← at_ (primaryStatus m) idx;
  h1 ← (if alive : bool then
          p ← at_ (primaries m) idx; ptr_insert h p key value
        else Returns h);
  rs ← at_ (replicas m) idx;
  insert_each h1 rs key value.

(** The replica loop of [retrieve], with its final [return]. *)
Fixpoint retrieve_each (h : gmap ptr CacheNode) (rs : list ptr)
    (key : string) : outcome (string * gmap ptr CacheNode) :=
  match rs with
  | [] => Returns (MISS_DB, h)
  | replica :: rs' =>
      '(val, h') ← ptr_retrieve h replica key;
      if decide (val ≠ MISS) then Returns (val, h')
      else retrieve_each h' rs' key
  end.

(** [string retrieve(const string& key)] *)
Definition retrieve (h : gmap ptr CacheNode) (m : ShardManager)
    (key : string) : outcome (string * gmap ptr CacheNode) :=
  idx ← getShardIndex m key;
  alive ← at_ (primaryStatus m) idx;
  '(hit, h1) ← (if alive : bool then
                  p ← at_ (primaries m) idx;
                  '(val, h') ← ptr_retrieve h p key;
                  Returns (if decide (val ≠ MISS) then Some val else None, h')
                else Returns (None, h));
  match hit with
  | Some val => Returns (val, h1)
  | None => rs ← at_ (replicas m) idx; retrieve_each h1 rs key
  end.

(** *** The read path as section 4.3 of the specification words it *)

(** The first answer, in the order asked, that is not a local miss; the
    shard-wide sentinel when there is none. *)
Fixpoint first_hit (h : gmap ptr CacheNode) (ps : list ptr) (key : string)
  : outcome string :=
  match ps with
  | [] => Returns MISS_DB
  | p :: ps' =>
      v ← local_answer h p key;
      if decide (v ≠ MISS) then Returns v else first_hit h ps' key
  end.

(** The nodes of a shard that an operation reaches, in order: the primary
    when it is alive, then the replicas as registered. *)
Definition targets (alive : bool) (p : ptr) (rs : list ptr) : list ptr :=
  (if alive then [p] else []) ++ rs.

End Sharding.

(** ** Well-formed topologies *)

(** Pointer [p] names a node whose store is in a consistent state and has
    room for at least one entry. *)
Definition node_ok (h : gmap ptr CacheNode) (p : ptr) : Prop :=
  ∃ n, h !! p = Some n ∧ Inv (cache n) ∧ 0 < capacity (cache n).

(** At least one shard; one status flag per primary, as [registerPrimary]
    leaves them; a replica list registered for every shard; every pointer
    naming a node. *)
Record wf (h : gmap ptr CacheNode) (m : ShardManager) : Prop := mkWf {
  wf_shards : 0 < length (primaries m);
  wf_status : length (primaryStatus m) = length (primaries m);
  wf_replicas : length (primaries m) ≤ length (replicas m);
  wf_primary_nodes : Forall (node_ok h) (primaries m);
  wf_replica_nodes : Forall (Forall (node_ok h)) (replicas m)
}.

(** No node is registered twice, neither within a shard nor across shards. *)
Definition no_alias (m : ShardManager) : Prop :=
  NoDup (primaries m ++ mjoin (replicas m)).

(** The shard of a key, with its parts. *)
Definition shard_of (hasher : string → N) (m : ShardManager) (key : string)
    (idx : nat) (alive : bool) (p : ptr) (rs : list ptr) : Prop :=
  getShardIndex hasher m key = Returns idx ∧
  primaryStatus m !! idx = Some alive ∧
  primaries m !! idx = Some p ∧
  replicas m !! idx = Some rs.

(** ** What the nodes of a heap hold *)

(** The value node [p] holds under [key], if any. *)
Definition holds (h : gmap ptr CacheNode) (p : ptr) (key : string)
  : option string :=
  n ← h !! p; contents (cache n) !! key.

(** Between [h] and [h'], node [q] took exactly one [insert(key, value)]. *)
Definition receives_write (h h' : gmap ptr CacheNode) (q : ptr)
    (key value : string) : Prop :=
  ∃ n n', h !! q = Some n ∧ CacheNode_insert n key value = Returns n' ∧
          h' !! q = Some n'.

(** [h'] has every node of [h], still usable and holding what it held. *)
Definition same_data (h h' : gmap ptr CacheNode) : Prop :=
  ∀ q, (node_ok h q → node_ok h' q) ∧ ∀ key, holds h' q key = holds h q key.

(** ** Concrete stores and topologies *)

(** A store holding ["a"] and, more recently used, ["b"]. *)
Definition store_ab : LRUCache :=
  {| capacity := 3;
     lruList := [(2, ("b", "2")); (1, ("a", "1"))];
     cacheMap := <["b" := 2]> (<["a" := 1]> ∅) |}.

(** The topology [main] builds: two shards, two replicas each, capacity 3.
    Nodes are allocated in the order [main] creates them. *)
Definition main_nodes : gmap ptr CacheNode :=
  list_to_map
    [(0, CacheNode_new "P0" true 3);
     (1, CacheNode_new "R00" false 3);
     (2, CacheNode_new "R01" false 3);
     (3, CacheNode_new "P1" true 3);
     (4, CacheNode_new "R10" false 3);
     (5, CacheNode_new "R11" false 3)].

Definition main_manager : ShardManager :=
  registerReplicas
    (registerPrimary
       (registerReplicas (registerPrimary ShardManager_new 0) 0 [1; 2]) 3)
    1 [4; 5].

(** One shard: a primary and two replicas, capacity 3. *)
Definition one_shard_nodes : gmap ptr CacheNode :=
  list_to_map
    [(0, CacheNode_new "P0" true 3);
     (1, CacheNode_new "R00" false 3);
     (2, CacheNode_new "R01" false 3)].

Definition one_shard : ShardManager :=
  registerReplicas (registerPrimary ShardManager_new 0) 0 [1; 2].

(** A hash function to run the examples with: the sum of the bytes. *)
Fixpoint byte_sum (key : string) : N :=
  match key with
  | EmptyString => 0%N
  | String c key' => (Ascii.N_of_ascii c + byte_sum key')%N
  end.

(** A node of capacity 3 whose store holds one pair. *)
Definition node_holding (id : string) (primary : bool) (key value : string)
  : CacheNode :=
  {| nodeId := id; isPrimary := primary;
     cache := {| capacity := 3; lruList := [(1, (key, value))];
                 cacheMap := <[key := 1]> ∅ |} |}.

(** The one-shard topology after [insert("k", "[MISS]")]. *)
Definition miss_nodes : gmap ptr CacheNode :=
  list_to_map
    [(0, node_holding "P0" true "k" "[MISS]");
     (1, node_holding "R00" false "k" "[MISS]");
     (2, node_holding "R01" false "k" "[MISS]")].

(** The topology of [main] after [insert("user:1", "Yash")], which
    [byte_sum] sends to shard 0. *)
Definition yash_nodes : gmap ptr CacheNode :=
  list_to_map
    [(0, node_holding "P0" true "user:1" "Yash");
     (1, node_holding "R00" false "user:1" "Yash");
     (2, node_holding "R01" false "user:1" "Yash");
     (3, CacheNode_new "P1" true 3);
     (4, CacheNode_new "R10" false 3);
     (5, CacheNode_new "R11" false 3)].

(** One node registered both as the primary of shard 0 and as its only
    replica. *)
Definition shared_node : gmap ptr CacheNode :=
  list_to_map [(0, CacheNode_new "P0" true 3)].

Definition shared_manager : ShardManager :=
  registerReplicas (registerPrimary ShardManager_new 0) 0 [0].

(** ** The failover property as the specification states it *)

(** With the primary of a shard disabled: a key of that shard that a
    replica of the shard holds is retrieved with the value held, which is
    not the node-local miss sentinel; a key that neither the primary nor any
    replica holds is retrieved as the shard-wide sentinel. *)
Definition failover_as_stated : Prop :=
  ∀ (hasher : string → N) (h : gmap ptr CacheNode) (m : ShardManager)
    (idx : nat) (key : string) (rs : list ptr),
    wf h m → getShardIndex hasher m key = Returns idx →
    replicas m !! idx = Some rs →
    (∀ r v, r ∈ rs → holds h r key = Some v →
       ∃ h', retrieve hasher h (disablePrimary m idx).1 key = Returns (v, h') ∧
             v ≠ MISS) ∧
    ((∀ p, primaries m !! idx = Some p → holds h p key = None) →
     (∀ r, r ∈ rs → holds h r key = None) →
       ∃ h', retrieve hasher h (disablePrimary m idx).1 key
             = Returns (MISS_DB, h')).

(** ** Sequences of operations on the manager's topology *)




(** ** Sequences of calls on a running manager *)

Inductive rop : Set :=
  | Insert (key value : string)
  | Retrieve (key : string)
  | Disable (idx : nat).

(** One call: the nodes and the manager afterwards, and what a [retrieve]
    returned. *)
Definition rstep (hasher : string → N)
    (w : gmap ptr CacheNode * ShardManager) (o : rop)
  : outcome (gmap ptr CacheNode * ShardManager * option string) :=
  match o with
  | Insert key value =>
      h' ← insert hasher w.1 w.2 key value; Returns (h', w.2, None)
  | Retrieve key =>
      '(v, h') ← retrieve hasher w.1 w.2 key; Returns (h', w.2, Some v)
  | Disable idx => Returns (w.1, (disablePrimary w.2 idx).1, None)
  end.

Fixpoint rrun (hasher : string → N)
    (w : gmap ptr CacheNode * ShardManager) (os : list rop)
  : outcome (gmap ptr CacheNode * ShardManager * list string) :=
  match os with
  | [] => Returns (w, [])
  | o :: os' =>
      '(w', v) ← rstep hasher w o;
      '(w'', vs) ← rrun hasher w' os';
      Returns (w'', from_option (λ x, [x]) [] v ++ vs)
  end.

(** ** class APIService *)

(** [void insertAPI(const string& key, const string& value)]: the nodes
    afterwards and the lines written to [cout]. *)
Definition insertAPI (hasher : string → N) (h : gmap ptr CacheNode)
    (m : ShardManager) (key value : string)
  : outcome (gmap ptr CacheNode * list string) :=
  h' ← insert hasher h m key value;
  Returns (h', ["[API] Inserting key=" +:+ key +:+ ", value=" +:+ value;
                "[200 OK]"]).

(** [void retrieveAPI(const string& key)] *)
Definition retrieveAPI (hasher : string → N) (h : gmap ptr CacheNode)
    (m : ShardManager) (key : string)
  : outcome (gmap ptr CacheNode * list string) :=
  '(val, h') ← retrieve hasher h m key;
  Returns (h', ["[API] Retrieving key=" +:+ key; "[Result] " +:+ val]).

(** ** The topology set up by [main] *)

(** [new CacheNode(id, primary, size)]: the node is built at the next free
    address. *)
Definition new_CacheNode (a : nat * gmap ptr CacheNode)
    (id : string) (primary : bool) (size : nat)
  : ptr * (nat * gmap ptr CacheNode) :=
  (a.1, (S a.1, <[a.1 := CacheNode_new id primary size]> a.2)).

(** The inner loop of [main]: the replicas of shard [i]. *)
Definition make_replicas (REPLICAS_PER_SHARD CACHE_CAPACITY : nat) (i : nat)
    (a : nat * gmap ptr CacheNode)
  : list ptr * (nat * gmap ptr CacheNode) :=
  foldl (λ la r,
           let '(replica, a') :=
             new_CacheNode la.2 ("R" +:+ decimal i +:+ decimal r) false
               CACHE_CAPACITY in
           (la.1 ++ [replica], a'))
        ([], a) (seq 0 REPLICAS_PER_SHARD).

(** One round of the outer loop of [main]. *)
Definition setup_shard (REPLICAS_PER_SHARD CACHE_CAPACITY : nat)
    (w : nat * gmap ptr CacheNode * ShardManager) (i : nat)
  : nat * gmap ptr CacheNode * ShardManager :=
  let '(primary, a1) :=
    new_CacheNode w.1 ("P" +:+ decimal i) true CACHE_CAPACITY in
  let m1 := registerPrimary w.2 primary in
  let '(replicaList, a2) :=
    make_replicas REPLICAS_PER_SHARD CACHE_CAPACITY i a1 in
  (a2, registerReplicas m1 i replicaList).

(** The outer loop of [main], the three constants of [main] taken as
    parameters. *)
Definition setup (NUM_SHARDS REPLICAS_PER_SHARD CACHE_CAPACITY : nat)
  : nat * gmap ptr CacheNode * ShardManager :=
  foldl (setup_shard REPLICAS_PER_SHARD CACHE_CAPACITY)
        ((0, ∅), ShardManager_new) (seq 0 NUM_SHARDS).

(** A shard whose primary is registered and whose replica list is
    registered empty. *)
Definition lone_primary : ShardManager :=
  registerReplicas (registerPrimary ShardManager_new 0) 0 [].

(** A primary registered with no call of [registerReplicas]. *)
Definition bare_primary : ShardManager :=
  registerPrimary ShardManager_new 0.

(** Node 0 alone, holding ["k"]. *)
Definition k_node : gmap ptr CacheNode :=
  list_to_map [(0, node_holding "P0" true "k" "v")].

(** A full store of capacity 2 holding ["a"] and, more recently used,
    ["b"]. *)
Definition store_full : LRUCache :=
  {| capacity := 2;
     lruList := [(2, ("b", "2")); (1, ("a", "1"))];
     cacheMap := <["b" := 2]> (<["a" := 1]> ∅) |}.

(** What holds after [i] rounds of the outer loop of [main]: [i] shards,
    all primaries alive, the given number of replicas each, every pointer
    naming a usable node built so far, no node registered twice. *)
Definition setup_inv (REPLICAS_PER_SHARD i : nat)
    (w : nat * gmap ptr CacheNode * ShardManager) : Prop :=
  length (primaries w.2) = i ∧
  length (primaryStatus w.2) = i ∧
  length (replicas w.2) = i ∧
  Forall (λ b, b = true) (primaryStatus w.2) ∧
  Forall (λ l, length l = REPLICAS_PER_SHARD) (replicas w.2) ∧
  Forall (node_ok w.1.2) (primaries w.2) ∧
  Forall (Forall (node_ok w.1.2)) (replicas w.2) ∧
  Forall (λ q, q < w.1.1) (primaries w.2 ++ mjoin (replicas w.2)) ∧
  no_alias w.2.

(** * Properties *)

(** ** List nodes and iterators *)

Section Cells.
Implicit Types (l r : list cell) (x c : cell) (it : handle).

Lemma unlink_middle l1 l2 it (e : entry) :
  it ∉ l1.*1 →
  unlink it (l1 ++ (it, e) :: l2) = Some ((it, e), l1 ++ l2).
Proof.
  induction l1 as [|c l1 IH]; simpl; intros Hnot.
  - by rewrite decide_True.
  - apply not_elem_of_cons in Hnot as [Hc Hl1].
    rewrite decide_False by done. by rewrite IH.
Qed.

Lemma unlink_None it l : it ∉ l.*1 → unlink it l = None.
Proof.
  induction l as [|c l IH]; simpl; [done|].
  intros [Hc Hl]%not_elem_of_cons.
  rewrite decide_False by done. by rewrite IH.
Qed.

Lemma find_head it e r :
  list_find (λ c : cell, c.1 = it) ((it, e) :: r) = Some (0, (it, e)).
Proof. simpl. by rewrite decide_True. Qed.

Lemma fresh_handle_bound l it : it ∈ l.*1 → it < fresh_handle l.
Proof.
  unfold fresh_handle. induction l as [|c l IH]; csimpl.
  - by intros ?%elem_of_nil.
  - intros [Heq|Hin]%elem_of_cons; [lia|]. specialize (IH Hin). lia.
Qed.

Lemma fresh_handle_fresh l : fresh_handle l ∉ l.*1.
Proof. intros Hin%fresh_handle_bound. lia. Qed.

Lemma removelast_snoc {A} (l : list A) (a : A) : removelast (l ++ [a]) = l.
Proof. by rewrite removelast_last. Qed.

Lemma removelast_fmap {A B} (f : A → B) (l : list A) :
  removelast (f <$> l) = f <$> removelast l.
Proof.
  induction l as [|a [|b l] IH]; simpl in *; [done..|]. by rewrite IH.
Qed.
End Cells.

(** ** The specification's list of entries *)

Section Entries.
Implicit Types (l : list entry) (k : string).

Lemma spec_find_lookup l k : spec_find l k = list_to_map (M:=gmap string string) l !! k.
Proof.
  unfold spec_find. induction l as [|[k' v'] l IH]; simpl; [done|].
  destruct (decide (k' = k)) as [->|Hne]; simpl.
  - by rewrite lookup_insert_eq.
  - rewrite lookup_insert_ne by done. rewrite <- IH.
    by destruct (list_find _ l) as [[??]|].
Qed.

Lemma spec_find_middle l1 l2 k v :
  k ∉ l1.*1 → spec_find (l1 ++ (k, v) :: l2) k = Some v.
Proof.
  unfold spec_find. induction l1 as [|[k' v'] l1 IH]; simpl; intros Hnot.
  - by rewrite decide_True.
  - apply not_elem_of_cons in Hnot as [Hk Hl1].
    rewrite decide_False by done. specialize (IH Hl1).
    by destruct (list_find _ (l1 ++ _)) as [[??]|].
Qed.

Lemma spec_find_None l k : k ∉ l.*1 → spec_find l k = None.
Proof.
  rewrite spec_find_lookup. apply not_elem_of_list_to_map_1.
Qed.

Lemma spec_drop_absent l k : k ∉ l.*1 → spec_drop l k = l.
Proof.
  unfold spec_drop. induction l as [|[k' v'] l IH]; simpl; [done|].
  intros [Hk Hl]%not_elem_of_cons. rewrite filter_cons_True by (simpl; congruence).
  by rewrite IH.
Qed.

Lemma spec_drop_middle l1 l2 k v :
  k ∉ l1.*1 → k ∉ l2.*1 → spec_drop (l1 ++ (k, v) :: l2) k = l1 ++ l2.
Proof.
  intros H1 H2. unfold spec_drop.
  rewrite filter_app, filter_cons_False by (simpl; tauto).
  fold (spec_drop l1 k) (spec_drop l2 k). by rewrite !spec_drop_absent.
Qed.
End Entries.

(** ** The store: [get] and [put] against the specification's wording *)

Section Store.
Implicit Types (s : LRUCache) (key value k v : string).

Lemma Inv_new cap : Inv (LRUCache_new cap).
Proof.
  split; simpl; [lia | constructor | constructor |].
  intros k it. rewrite lookup_empty. split; [done|].
  by intros [v ?%elem_of_nil].
Qed.

Lemma Inv_perm s s' :
  Inv s → lruList s' ≡ₚ lruList s → cacheMap s' = cacheMap s →
  capacity s' = capacity s → Inv s'.
Proof.
  intros [Hsz Hk Hn Hi] Hp Hm Hc. split.
  - rewrite Hp, Hc. done.
  - unfold entries. by rewrite Hp.
  - by rewrite Hp.
  - intros k it. rewrite Hm, Hi. by setoid_rewrite Hp.
Qed.

(** An indexed key names one node; no other node has its address or its
    key. *)
Lemma Inv_present s key it :
  Inv s → cacheMap s !! key = Some it →
  ∃ v l1 l2, lruList s = l1 ++ (it, (key, v)) :: l2 ∧
    (it ∉ l1.*1) ∧ (key ∉ l1.*2.*1) ∧ (key ∉ l2.*2.*1).
Proof.
  intros [_ Hk Hn Hi] Hm. apply Hi in Hm as [v Hin].
  apply list_elem_of_split in Hin as (l1 & l2 & Hl).
  exists v, l1, l2. unfold entries in Hk. rewrite Hl in Hk, Hn.
  rewrite !fmap_app, !fmap_cons in Hk. rewrite fmap_app, fmap_cons in Hn.
  apply NoDup_app in Hk as (_ & Hk1 & Hk2%NoDup_cons).
  apply NoDup_app in Hn as (_ & Hn1 & _).
  split_and!; [done| | |by destruct Hk2].
  - intros Hin. apply (Hn1 _ Hin). simpl. left.
  - intros Hin. apply (Hk1 _ Hin). simpl. left.
Qed.

Lemma Inv_absent s key :
  Inv s → cacheMap s !! key = None → key ∉ (entries s).*1.
Proof.
  intros [_ _ _ Hi] Hm Hin. unfold entries in Hin.
  apply list_elem_of_fmap in Hin as ([k v] & -> & Hin).
  apply list_elem_of_fmap in Hin as ([it e] & Heq & Hin). simpl in *. subst e.
  assert (cacheMap s !! k = Some it) as Hsome by (apply Hi; eauto).
  congruence.
Qed.

Theorem get_spec s key :
  Inv s →
  ∃ s', get s key = Returns ((spec_get (entries s) key).1, s') ∧
    entries s' = (spec_get (entries s) key).2 ∧
    lruList s' ≡ₚ lruList s ∧ cacheMap s' = cacheMap s ∧
    capacity s' = capacity s ∧ Inv s'.
Proof.
  intros HI. unfold get, spec_get.
  destruct (cacheMap s !! key) as [it|] eqn:Hm.
  - destruct (Inv_present _ _ _ HI Hm) as (v & l1 & l2 & Hl & Hn1 & Hk1 & Hk2).
    unfold splice_front, entries. rewrite Hl.
    rewrite unlink_middle by done. simpl.
    unfold deref_second. rewrite find_head. simpl.
    rewrite fmap_app, fmap_cons. simpl.
    rewrite spec_find_middle, spec_drop_middle by done. simpl.
    eexists. split; [done|]. simpl.
    assert ((it, (key, v)) :: l1 ++ l2 ≡ₚ l1 ++ (it, (key, v)) :: l2) as Hp
      by apply Permutation_middle.
    split_and!; [by rewrite fmap_app|done..|].
    eapply Inv_perm; [done|simpl..]; [by rewrite Hl|done|done].
  - rewrite spec_find_None by eauto using Inv_absent. simpl. eauto 10.
Qed.
(** A new node linked at the head under a key the list does not hold. *)
Lemma Inv_push cap (l : list cell) (m : gmap string handle) key value :
  length l < cap → NoDup l.*2.*1 → NoDup l.*1 → key ∉ l.*2.*1 →
  (∀ k it, k ≠ key → m !! k = Some it ↔ ∃ v, (it, (k, v)) ∈ l) →
  Inv {| capacity := cap; lruList := (fresh_handle l, (key, value)) :: l;
         cacheMap := <[key := fresh_handle l]> m |}.
Proof.
  intros Hlen Hk Hn Habs Hi. split; simpl.
  - lia.
  - unfold entries. simpl. by apply NoDup_cons.
  - apply NoDup_cons. split; [apply fresh_handle_fresh | done].
  - intros k it. destruct (decide (k = key)) as [->|Hne].
    + rewrite lookup_insert_eq. split.
      * intros [= <-]. exists value. left.
      * intros [v [[= -> _]|Hin]%elem_of_cons]; [done|].
        exfalso. apply Habs.
        apply list_elem_of_fmap. exists (key, v). split; [done|].
        apply list_elem_of_fmap. by exists (it, (key, v)).
    + rewrite lookup_insert_ne by done. rewrite (Hi k it Hne).
      split; intros [v Hin]; exists v.
      * by right.
      * apply elem_of_cons in Hin as [[= _ ? _]|Hin]; done.
Qed.

Theorem put_spec s key value :
  Inv s → 0 < capacity s →
  ∃ s', put s key value = Returns s' ∧
    entries s' = spec_put (capacity s) (entries s) key value ∧
    capacity s' = capacity s ∧ Inv s'.
Proof.
  intros HI Hcap. unfold put, spec_put.
  destruct (cacheMap s !! key) as [it|] eqn:Hm.
  - destruct (Inv_present _ _ _ HI Hm) as (v & l1 & l2 & Hl & Hn1 & Hk1 & Hk2).
    destruct HI as [Hsz Hk Hn Hi].
    unfold splice_front, entries in *. rewrite Hl in *.
    rewrite unlink_middle by done. simpl.
    unfold assign_second. rewrite find_head. simpl.
    rewrite fmap_app, fmap_cons. simpl.
    rewrite spec_find_middle, spec_drop_middle by done.
    eexists. split; [done|]. simpl.
    split_and!; [by rewrite fmap_app|done|].
    split; simpl.
    + rewrite length_app in Hsz. simpl in Hsz. rewrite length_app. lia.
    + unfold entries. simpl.
      rewrite !fmap_app, !fmap_cons in Hk. simpl in Hk.
      apply NoDup_app in Hk as (Hd1 & Hd12 & [Hd2 Hd3]%NoDup_cons).
      rewrite !fmap_app. apply NoDup_cons. split.
      * rewrite elem_of_app. tauto.
      * apply NoDup_app. split_and!; [done| |done].
        intros x Hx1 Hx2. apply (Hd12 x Hx1). by right.
    + rewrite fmap_app, fmap_cons in Hn. simpl in Hn.
      apply NoDup_app in Hn as (Hd1 & Hd12 & [Hd2 Hd3]%NoDup_cons).
      rewrite fmap_app. apply NoDup_cons. split.
      * rewrite elem_of_app. intros [?|?]; [done|]. done.
      * apply NoDup_app. split_and!; [done| |done].
        intros x Hx1 Hx2. apply (Hd12 x Hx1). by right.
    + intros k0 it0. rewrite Hi. split.
      * intros [v0 Hin]. rewrite elem_of_app, elem_of_cons in Hin.
        destruct Hin as [Hin|[[= -> ->]|Hin]].
        -- exists v0. rewrite elem_of_cons, elem_of_app. tauto.
        -- exists value. left.
        -- exists v0. rewrite elem_of_cons, elem_of_app. tauto.
      * intros [v0 Hin]. rewrite elem_of_cons, elem_of_app in Hin.
        destruct Hin as [[= -> ->]|[Hin|Hin]].
        -- exists v. rewrite elem_of_app, elem_of_cons. tauto.
        -- exists v0. rewrite elem_of_app, elem_of_cons. tauto.
        -- exists v0. rewrite elem_of_app, elem_of_cons. tauto.
  - pose proof (Inv_absent _ _ HI Hm) as Habs.
    rewrite spec_find_None by done.
    destruct HI as [Hsz Hk Hn Hi]. unfold entries in *.
    rewrite length_fmap.
    destruct (decide (capacity s ≤ length (lruList s))) as [Hfull|Hroom].
    + destruct (lruList s) as [|[itl [kl vl]] l0 _] eqn:Hl using rev_ind;
        [simpl in Hfull; lia|].
      unfold back, pop_back. rewrite last_snoc, removelast_snoc. simpl.
      rewrite removelast_fmap, removelast_snoc.
      eexists. split; [done|]. simpl. split_and!; [done..|].
      rewrite !fmap_app in Hk, Habs. simpl in Hk, Habs.
      apply NoDup_app in Hk as (Hd1 & Hd12 & _).
      rewrite fmap_app in Hn. apply NoDup_app in Hn as (Hn1 & _ & _).
      rewrite length_app in Hsz. simpl in Hsz.
      apply not_elem_of_app in Habs as [Habs _].
      apply Inv_push; [lia|done..|].
      intros k it Hne. destruct (decide (k = kl)) as [->|Hkl].
      * rewrite lookup_delete_eq. split; [done|]. intros [v Hin].
        exfalso. apply (Hd12 kl); [|left].
        apply list_elem_of_fmap. exists (kl, v). split; [done|].
        apply list_elem_of_fmap. by exists (it, (kl, v)).
      * rewrite lookup_delete_ne by done. rewrite Hi.
        split; intros [v Hin]; exists v.
        -- apply elem_of_app in Hin as [Hin|Hin]; [done|].
           apply list_elem_of_singleton in Hin. congruence.
        -- apply elem_of_app. by left.
    + eexists. split; [done|]. simpl. split_and!; [done..|].
      apply Inv_push; [lia|done..|]. intros k it _. apply Hi.
Qed.
End Store.

(** ** The store seen as a finite map *)

Section Contents.
Implicit Types (s : LRUCache) (key value : string).

Lemma contents_new cap : contents (LRUCache_new cap) = ∅.
Proof. done. Qed.

Lemma contents_lookup s key : contents s !! key = spec_find (entries s) key.
Proof. unfold contents. by rewrite spec_find_lookup. Qed.

Lemma contents_perm s s' :
  Inv s → lruList s' ≡ₚ lruList s → contents s' = contents s.
Proof.
  intros [_ Hk _ _] Hp. unfold contents, entries in *.
  apply list_to_map_proper; [by rewrite Hp | by rewrite Hp].
Qed.

(** [get] answers with the value held under the key, the miss sentinel
    when there is none, and leaves every key with its value. *)
Lemma get_contents s key :
  Inv s →
  ∃ s', get s key = Returns (default MISS (contents s !! key), s') ∧
    contents s' = contents s ∧ cacheMap s' = cacheMap s ∧
    lruList s' ≡ₚ lruList s ∧ capacity s' = capacity s ∧ Inv s'.
Proof.
  intros HI. destruct (get_spec s key HI) as (s' & Hg & _ & Hp & Hm & Hc & HI').
  exists s'. split_and!; [|by apply contents_perm|done..].
  rewrite Hg, contents_lookup. unfold spec_get.
  by destruct (spec_find _ _).
Qed.

(** [put] leaves the key holding the value. *)
Lemma put_contents s key value :
  Inv s → 0 < capacity s →
  ∃ s', put s key value = Returns s' ∧ contents s' !! key = Some value ∧
    capacity s' = capacity s ∧ Inv s'.
Proof.
  intros HI Hcap.
  destruct (put_spec s key value HI Hcap) as (s' & Hp & He & Hc & HI').
  exists s'. split_and!; [done| |done..].
  unfold contents. rewrite He. unfold spec_put.
  destruct (spec_find _ _); simpl; apply lookup_insert_eq.
Qed.

Lemma step_Inv s o :
  Inv s → 0 < capacity s →
  ∃ s', step s o = Returns s' ∧ capacity s' = capacity s ∧ Inv s'.
Proof.
  intros HI Hcap. destruct o as [key|key value]; simpl.
  - destruct (get_spec s key HI) as (s' & -> & _ & _ & _ & ? & ?).
    by exists s'.
  - destruct (put_spec s key value HI Hcap) as (s' & -> & _ & ? & ?).
    by exists s'.
Qed.

Lemma run_Inv s os :
  Inv s → 0 < capacity s →
  ∃ s', run s os = Returns s' ∧ capacity s' = capacity s ∧ Inv s'.
Proof.
  revert s. induction os as [|o os IH]; intros s HI Hcap; simpl.
  - by exists s.
  - destruct (step_Inv s o HI Hcap) as (s1 & -> & Hc1 & HI1). simpl.
    destruct (IH s1 HI1) as (s' & Hr & Hc & HI'); [lia|].
    exists s'. split_and!; [done|congruence|done].
Qed.

(** With no room at all, the first [put] reads the back of an empty
    list. *)
Lemma put_capacity_zero key value :
  put (LRUCache_new 0) key value = Undefined BackOfEmptyList.
Proof. done. Qed.
End Contents.

Lemma store_ab_run :
  run (LRUCache_new 3) [Put "a" "1"; Put "b" "2"] = Returns store_ab.
Proof. vm_compute. reflexivity. Qed.

Lemma store_ab_Inv : Inv store_ab.
Proof.
  destruct (run_Inv (LRUCache_new 3) [Put "a" "1"; Put "b" "2"])
    as (s & Hr & _ & HI); [apply Inv_new | simpl; lia |].
  rewrite store_ab_run in Hr. by injection Hr as <-.
Qed.

(** ** Claims about the store *)

(** C7. For every store with capacity above zero that satisfies the
    invariant, every sequence of [get] and [put] runs to completion and
    leaves a store that satisfies it again: at most [capacity] entries, every
    key at most once in the sequence, and the index naming exactly the
    entries of the sequence, each under its own key.  The freshly built
    store satisfies the invariant. *)
Theorem store_invariant_preserved (s : LRUCache) (os : list op) :
  0 < capacity s → Inv s →
  Inv (LRUCache_new (capacity s)) ∧
  ∃ s', run s os = Returns s' ∧ capacity s' = capacity s ∧ Inv s'.
Proof. intros Hcap HI. split; [apply Inv_new | by apply run_Inv]. Qed.

Lemma store_invariant_preserved_witness :
  Inv (LRUCache_new 3) ∧
  ∃ s', run store_ab [Get "a"; Put "c" "3"; Put "d" "4"; Get "b"; Put "a" "5"]
        = Returns s' ∧ capacity s' = 3 ∧ Inv s'.
Proof.
  apply (store_invariant_preserved store_ab); [simpl; lia | apply store_ab_Inv].
Defined.

(** C9. On a store that satisfies the invariant, [get] returns, and it
    changes the recency order only: the keys held and the value under each
    key are the same before and after (the contents are the same finite
    map), the index is the same, and the sequence of nodes is a permutation
    of what it was; this for a key that is held and for one that is not. *)
Theorem get_changes_order_only (s : LRUCache) (key : string) :
  Inv s →
  ∃ v s', get s key = Returns (v, s') ∧
    contents s' = contents s ∧ cacheMap s' = cacheMap s ∧
    lruList s' ≡ₚ lruList s ∧ capacity s' = capacity s.
Proof.
  intros HI. destruct (get_contents s key HI) as (s' & ? & ? & ? & ? & ? & _).
  eauto 10.
Qed.

Lemma get_changes_order_only_witness :
  ∃ v s', get store_ab "a" = Returns (v, s') ∧
    contents s' = contents store_ab ∧ cacheMap s' = cacheMap store_ab ∧
    lruList s' ≡ₚ lruList store_ab ∧ capacity s' = capacity store_ab.
Proof. apply get_changes_order_only, store_ab_Inv. Defined.

(** Four keys, no two the same. *)
Lemma NoDup_four (a b c d : string) :
  NoDup [a; b; c; d] →
  a ≠ b ∧ a ≠ c ∧ a ≠ d ∧ b ≠ c ∧ b ≠ d ∧ c ≠ d.
Proof.
  rewrite !NoDup_cons, !elem_of_cons, !elem_of_nil. intros H.
  split_and!; intros ->; tauto.
Qed.

Ltac spec_steps :=
  unfold spec_put, spec_get, spec_find, spec_drop; simpl;
  repeat (case_decide; simplify_eq/=; try lia);
  rewrite ?filter_cons_True, ?filter_cons_False, ?filter_nil by (simpl; congruence);
  try done.

(** What [get] answers on a store whose entries are known. *)
Lemma get_answer (s : LRUCache) (key : string) :
  Inv s → fst <$> get s key = Returns (spec_get (entries s) key).1.
Proof. intros HI. by destruct (get_spec s key HI) as (s' & -> & _). Qed.

(** A key that is not in the sequence is not in the index either. *)
Lemma Inv_unindexed (s : LRUCache) (key : string) :
  Inv s → key ∉ (entries s).*1 → cacheMap s !! key = None.
Proof.
  intros HI Habs. destruct (cacheMap s !! key) as [it|] eqn:Hm; [|done].
  destruct (Inv_present _ _ _ HI Hm) as (v & l1 & l2 & Hl & _).
  exfalso. apply Habs. unfold entries. rewrite Hl, !fmap_app, !fmap_cons.
  rewrite elem_of_app, elem_of_cons. simpl. tauto.
Qed.

(** C1. A store of capacity 3, built empty, is given four distinct keys
    [a], [b], [c], [d] in this order.  All four calls return.  Afterwards
    [a] has been evicted: the sequence holds exactly the three entries of
    [d], [c] and [b], most recently used first, the index has no entry for
    [a], and the store is in a consistent state.  [get a] answers the
    node-local miss sentinel, and [get b], [get c], [get d] answer the
    values inserted. *)
Theorem lru_eviction (a b c d va vb vc vd : string) :
  NoDup [a; b; c; d] →
  ∃ s, run (LRUCache_new 3) [Put a va; Put b vb; Put c vc; Put d vd]
       = Returns s ∧
    entries s = [(d, vd); (c, vc); (b, vb)] ∧
    cacheMap s !! a = None ∧
    Inv s ∧
    fst <$> get s a = Returns MISS ∧
    fst <$> get s b = Returns vb ∧
    fst <$> get s c = Returns vc ∧
    fst <$> get s d = Returns vd.
Proof.
  intros (Hab & Hac & Had & Hbc & Hbd & Hcd)%NoDup_four. simpl.
  destruct (put_spec (LRUCache_new 3) a va) as (s1 & -> & E1 & C1 & I1);
    [apply Inv_new | simpl; lia |]. simpl in C1. simpl.
  assert (entries s1 = [(a, va)]) as E1' by (rewrite E1; spec_steps).
  destruct (put_spec s1 b vb) as (s2 & -> & E2 & C2 & I2); [done | lia |].
  simpl. rewrite E1', C1 in E2.
  assert (entries s2 = [(b, vb); (a, va)]) as E2' by (rewrite E2; spec_steps).
  destruct (put_spec s2 c vc) as (s3 & -> & E3 & C3 & I3); [done | lia |].
  simpl. rewrite E2', C2, C1 in E3.
  assert (entries s3 = [(c, vc); (b, vb); (a, va)]) as E3'
    by (rewrite E3; spec_steps).
  destruct (put_spec s3 d vd) as (s4 & -> & E4 & C4 & I4); [done | lia |].
  simpl. rewrite E3', C3, C2, C1 in E4.
  assert (entries s4 = [(d, vd); (c, vc); (b, vb)]) as E4'
    by (rewrite E4; spec_steps).
  exists s4. split; [done|]. split; [done|]. split.
  { apply Inv_unindexed; [done|]. rewrite E4'. simpl.
    rewrite !elem_of_cons, elem_of_nil. intros [?|[?|[?|?]]]; congruence. }
  split; [done|]. rewrite !get_answer by done. rewrite E4'.
  clear -Hab Hac Had Hbc Hbd Hcd. split_and!; spec_steps.
Qed.

Lemma lru_eviction_witness :
  ∃ s, run (LRUCache_new 3)
         [Put "a" "1"; Put "b" "2"; Put "c" "3"; Put "d" "4"] = Returns s ∧
    entries s = [("d", "4"); ("c", "3"); ("b", "2")] ∧
    cacheMap s !! "a" = None ∧
    Inv s ∧
    fst <$> get s "a" = Returns MISS ∧
    fst <$> get s "b" = Returns "2" ∧
    fst <$> get s "c" = Returns "3" ∧
    fst <$> get s "d" = Returns "4".
Proof.
  apply (lru_eviction "a" "b" "c" "d" "1" "2" "3" "4").
  compute_done.
Defined.



(** ** Calls through a node pointer *)

Section Nodes.
Implicit Types (h : gmap ptr CacheNode) (p q : ptr) (key value : string).

Lemma same_data_refl h : same_data h h.
Proof. by intros q. Qed.

Lemma same_data_trans h1 h2 h3 :
  same_data h1 h2 → same_data h2 h3 → same_data h1 h3.
Proof.
  intros H12 H23 q. destruct (H12 q) as [Ho1 Hh1], (H23 q) as [Ho2 Hh2].
  split; [eauto|]. intros key. by rewrite Hh2.
Qed.

Lemma holds_insert h p n key :
  holds (<[p := n]> h) p key = contents (cache n) !! key.
Proof. unfold holds. by rewrite lookup_insert_eq. Qed.

Lemma holds_other h h' q key :
  h' !! q = h !! q → holds h' q key = holds h q key.
Proof. unfold holds. by intros ->. Qed.

Lemma node_ok_other h h' q : h' !! q = h !! q → node_ok h q → node_ok h' q.
Proof. unfold node_ok. by intros ->. Qed.

(** A node asked for a key answers with what it holds, the miss sentinel
    when it holds nothing; no node holds anything else afterwards. *)
Lemma ptr_retrieve_ok h p key :
  node_ok h p →
  ∃ h', ptr_retrieve h p key = Returns (default MISS (holds h p key), h') ∧
    same_data h h' ∧ ∀ q, q ≠ p → h' !! q = h !! q.
Proof.
  intros (n & Hn & HI & Hcap). unfold ptr_retrieve, CacheNode_retrieve.
  destruct (get_contents (cache n) key HI)
    as (c & Hg & Hc & _ & _ & Hcap' & HI').
  rewrite Hn, Hg. simpl. eexists. split_and!.
  - unfold holds. by rewrite Hn.
  - intros q. destruct (decide (q = p)) as [->|Hne].
    + split.
      * intros _. exists (with_cache n c). rewrite lookup_insert_eq.
        simpl. split_and!; [done..|lia].
      * intros key'. rewrite holds_insert. unfold holds. rewrite Hn.
        simpl. by rewrite Hc.
    + split; [apply node_ok_other | intros key'; apply holds_other];
        by rewrite lookup_insert_ne.
  - intros q Hne. by rewrite lookup_insert_ne.
Qed.

Lemma local_answer_ok h p key :
  node_ok h p → local_answer h p key = Returns (default MISS (holds h p key)).
Proof.
  intros Hok. unfold local_answer.
  by destruct (ptr_retrieve_ok h p key Hok) as (h' & -> & _).
Qed.

(** A node given a pair takes it, and holds it afterwards; the other
    nodes are as they were. *)
Lemma ptr_insert_ok h p key value :
  node_ok h p →
  ∃ h', ptr_insert h p key value = Returns h' ∧
    receives_write h h' p key value ∧ holds h' p key = Some value ∧
    (∀ q, node_ok h q → node_ok h' q) ∧ ∀ q, q ≠ p → h' !! q = h !! q.
Proof.
  intros (n & Hn & HI & Hcap). unfold ptr_insert, CacheNode_insert.
  destruct (put_contents (cache n) key value HI Hcap)
    as (c & Hp & Hc & Hcap' & HI').
  rewrite Hn, Hp. simpl. eexists. split_and!; [done| | | |].
  - exists n, (with_cache n c). unfold CacheNode_insert.
    rewrite Hp, lookup_insert_eq. done.
  - by rewrite holds_insert.
  - intros q. destruct (decide (q = p)) as [->|Hne].
    + intros _. exists (with_cache n c). rewrite lookup_insert_eq.
      simpl. split_and!; [done..|lia].
    + apply node_ok_other. by rewrite lookup_insert_ne.
  - intros q Hne. by rewrite lookup_insert_ne.
Qed.
End Nodes.

(** ** The shard manager *)

Section Router.
Variable hasher : string → N.
Implicit Types (h : gmap ptr CacheNode) (m : ShardManager).
Implicit Types (p q : ptr) (rs ps : list ptr) (key value : string).

Lemma getShardIndex_range m key :
  0 < length (primaries m) →
  ∃ idx, getShardIndex hasher m key = Returns idx ∧
         idx < length (primaries m).
Proof.
  intros Hn. unfold getShardIndex. rewrite decide_False by lia.
  eexists. split; [done|].
  pose proof (N.mod_lt (hasher key) (N.of_nat (length (primaries m)))).
  lia.
Qed.

Lemma getShardIndex_empty m key :
  primaries m = [] → getShardIndex hasher m key = Undefined ModuloByZero.
Proof. intros Hp. unfold getShardIndex. by rewrite Hp. Qed.

(** In a well-formed topology every key has a shard, with a status flag,
    a primary and a replica list, all naming usable nodes. *)
Lemma shard_of_wf h m key :
  wf h m →
  ∃ idx alive p rs, shard_of hasher m key idx alive p rs ∧
    node_ok h p ∧ Forall (node_ok h) rs.
Proof.
  intros [Hn Hst Hrep Hpn Hrn].
  destruct (getShardIndex_range m key Hn) as (idx & Hidx & Hlt).
  destruct (lookup_lt_is_Some_2 (primaryStatus m) idx) as [alive Ha]; [lia|].
  destruct (lookup_lt_is_Some_2 (primaries m) idx) as [p Hp]; [lia|].
  destruct (lookup_lt_is_Some_2 (replicas m) idx) as [rs Hrs]; [lia|].
  exists idx, alive, p, rs. split; [done|]. split.
  - by eapply Forall_lookup_1 in Hpn.
  - by eapply Forall_lookup_1 in Hrn.
Qed.

Lemma first_hit_same_data h h' ps key :
  same_data h h' → Forall (node_ok h) ps →
  first_hit h' ps key = first_hit h ps key.
Proof.
  intros Hs. induction 1 as [|p ps Hp _ IH]; simpl; [done|].
  destruct (Hs p) as [Hok Hh].
  rewrite !local_answer_ok, Hh by eauto. simpl. by rewrite IH.
Qed.

(** The replica loop returns the first hit in registered order, asked of
    the nodes as they are at the start; it only reorders recency. *)
Lemma retrieve_each_ok h rs key :
  Forall (node_ok h) rs →
  ∃ v h', retrieve_each h rs key = Returns (v, h') ∧
    first_hit h rs key = Returns v ∧ same_data h h' ∧
    ∀ q, q ∉ rs → h' !! q = h !! q.
Proof.
  intros Hrs. revert h Hrs.
  induction rs as [|r rs IH]; intros h Hrs; simpl.
  - exists MISS_DB, h. eauto using same_data_refl.
  - apply Forall_cons in Hrs as [Hr Hrs].
    destruct (ptr_retrieve_ok h r key Hr) as (h1 & Hg & Hs1 & Hf1).
    rewrite Hg, local_answer_ok by done. simpl.
    destruct (decide (default MISS (holds h r key) ≠ MISS)) as [Hhit|Hmiss].
    + eexists _, h1. split_and!; [done..|].
      intros q [Hq _]%not_elem_of_cons. by apply Hf1.
    + destruct (IH h1) as (v & h' & Hl & Hfh & Hs & Hf).
      { eapply Forall_impl; [done|]. intros q. apply Hs1. }
      exists v, h'. split_and!; [done| |by eapply same_data_trans|].
      * by rewrite <- (first_hit_same_data h h1).
      * intros q [Hq Hqs]%not_elem_of_cons. rewrite Hf by done. by apply Hf1.
Qed.

Lemma first_hit_not_miss h ps key v :
  first_hit h ps key = Returns v → v ≠ MISS.
Proof.
  induction ps as [|p ps IH]; simpl.
  - by intros [= <-].
  - destruct (local_answer h p key) as [a|]; simpl; [|done].
    destruct (decide (a ≠ MISS)); [by intros [= <-] | done].
Qed.

(** The read path, whole. *)
Lemma retrieve_ok h m key idx alive p rs :
  shard_of hasher m key idx alive p rs →
  node_ok h p → Forall (node_ok h) rs →
  ∃ v h', retrieve hasher h m key = Returns (v, h') ∧
    first_hit h (targets alive p rs) key = Returns v ∧
    same_data h h' ∧
    (∀ q, q ≠ p → q ∉ rs → h' !! q = h !! q) ∧
    (alive = true → default MISS (holds h p key) ≠ MISS →
     v = default MISS (holds h p key) ∧ ∀ q, q ≠ p → h' !! q = h !! q) ∧
    (alive = false → h' !! p = h !! p ∨ p ∈ rs).
Proof.
  intros (Hidx & Ha & Hp & Hrs) Hpok Hrsok. unfold retrieve, at_, targets.
  rewrite Hidx. simpl. rewrite Ha. simpl. destruct alive; simpl.
  - rewrite Hp. simpl.
    destruct (ptr_retrieve_ok h p key Hpok) as (h1 & Hg & Hs1 & Hf1).
    rewrite Hg, local_answer_ok by done. simpl.
    destruct (decide (default MISS (holds h p key) ≠ MISS)) as [Hhit|Hmiss].
    + eexists _, h1. split_and!; [done..| | |done].
      * intros q Hq _. by apply Hf1.
      * done.
    + rewrite Hrs. simpl.
      destruct (retrieve_each_ok h1 rs key) as (v & h' & Hl & Hfh & Hs & Hf).
      { eapply Forall_impl; [done|]. intros q. apply Hs1. }
      exists v, h'. split_and!; [done| |by eapply same_data_trans| |done..].
      * by rewrite <- (first_hit_same_data h h1).
      * intros q Hq Hqs. rewrite Hf by done. by apply Hf1.
  - rewrite Hrs. simpl.
    destruct (retrieve_each_ok h rs key Hrsok) as (v & h' & Hl & Hfh & Hs & Hf).
    exists v, h'. split_and!; [done..| |done|].
    + intros q _ Hqs. by apply Hf.
    + intros _. destruct (decide (p ∈ rs)); [by right|left; by apply Hf].
Qed.
Lemma first_hit_all_miss h ps key :
  (∀ q, q ∈ ps → local_answer h q key = Returns MISS) →
  first_hit h ps key = Returns MISS_DB.
Proof.
  induction ps as [|p ps IH]; simpl; intros Hall; [done|].
  rewrite (Hall p) by left. simpl.
  apply IH. intros q Hq. apply Hall. by right.
Qed.

(** Replicas that hold nothing, or hold the miss sentinel's own text, are
    passed over; the first one that holds anything else answers. *)
Lemma first_hit_middle h pre r post key w :
  Forall (node_ok h) (pre ++ r :: post) →
  (∀ q, q ∈ pre → holds h q key = None ∨ holds h q key = Some MISS) →
  holds h r key = Some w → w ≠ MISS →
  first_hit h (pre ++ r :: post) key = Returns w.
Proof.
  induction pre as [|p pre IH]; simpl; intros Hok Hpre Hr Hw.
  - apply Forall_cons in Hok as [Hok _].
    rewrite local_answer_ok, Hr by done. simpl. by rewrite decide_True.
  - apply Forall_cons in Hok as [Hp Hok].
    rewrite local_answer_ok by done.
    assert (default MISS (holds h p key) = MISS) as ->
      by (destruct (Hpre p) as [-> | ->]; [left|done..]).
    simpl.
    apply IH; [done| |done..]. intros q Hq. apply Hpre. by right.
Qed.

(** The write loop: every node in the list ends up holding the pair, and,
    when no node is listed twice, took exactly one write. *)
Lemma insert_each_ok h ps key value :
  Forall (node_ok h) ps →
  ∃ h', insert_each h ps key value = Returns h' ∧
    (∀ q, node_ok h q → node_ok h' q) ∧
    (∀ q, q ∈ ps → holds h' q key = Some value) ∧
    (∀ q, q ∉ ps → h' !! q = h !! q) ∧
    (NoDup ps → ∀ q, q ∈ ps → receives_write h h' q key value).
Proof.
  intros Hps. revert h Hps.
  induction ps as [|r ps IH]; intros h Hps; simpl.
  - exists h. split_and!; [done|done| |done|].
    + by intros q ?%elem_of_nil.
    + by intros _ q ?%elem_of_nil.
  - apply Forall_cons in Hps as [Hr Hps].
    destruct (ptr_insert_ok h r key value Hr)
      as (h1 & -> & Hw1 & Hh1 & Hok1 & Hf1). simpl.
    destruct (IH h1) as (h' & Hins & Hok & Hh & Hf & Hw).
    { eapply Forall_impl; [done|]. apply Hok1. }
    exists h'. split_and!; [done|by eauto| | |].
    + intros q [->|Hq]%elem_of_cons; [|by apply Hh].
      destruct (decide (r ∈ ps)); [by apply Hh|].
      by rewrite (holds_other h1 h') by (by apply Hf).
    + intros q [Hq Hqs]%not_elem_of_cons. rewrite Hf by done. by apply Hf1.
    + intros [Hr' Hnd]%NoDup_cons q [->|Hq]%elem_of_cons.
      * destruct Hw1 as (n & n' & ? & ? & ?). exists n, n'.
        by rewrite Hf.
      * destruct (Hw Hnd q Hq) as (n & n' & Hn & ? & ?). exists n, n'.
        rewrite Hf1 in Hn by (intros ->; done). done.
Qed.

(** [insert] is the write loop over the shard's targets. *)
Lemma insert_targets h m key value idx alive p rs :
  shard_of hasher m key idx alive p rs →
  insert hasher h m key value
  = insert_each h (targets alive p rs) key value.
Proof.
  intros (Hidx & Ha & Hp & Hrs). unfold insert, at_, targets.
  rewrite Hidx. simpl. rewrite Ha. simpl. destruct alive; simpl.
  - rewrite Hp. simpl. destruct (ptr_insert h p key value); simpl; [|done].
    by rewrite Hrs.
  - by rewrite Hrs.
Qed.

Lemma no_alias_shard m idx p rs :
  no_alias m → primaries m !! idx = Some p → replicas m !! idx = Some rs →
  (p ∉ rs) ∧ NoDup rs.
Proof.
  intros (_ & Hdisj & Hnd)%NoDup_app Hp Hrs.
  apply list_elem_of_lookup_2 in Hp.
  apply list_elem_of_lookup_2, list_elem_of_split in Hrs as (l1 & l2 & Hl).
  rewrite Hl, join_app in Hdisj, Hnd. simpl in *. split.
  - intros Hin. apply (Hdisj p Hp). rewrite !elem_of_app. tauto.
  - by apply NoDup_app in Hnd as (_ & _ & (? & _ & _)%NoDup_app).
Qed.

Lemma targets_ok h alive p rs :
  node_ok h p → Forall (node_ok h) rs → Forall (node_ok h) (targets alive p rs).
Proof. intros ??. destruct alive; simpl; [by constructor | done]. Qed.

(** Writes keep a topology well formed. *)
Lemma insert_wf h m key value :
  wf h m → ∃ h', insert hasher h m key value = Returns h' ∧ wf h' m.
Proof.
  intros Hwf.
  destruct (shard_of_wf h m key Hwf) as (idx & alive & p & rs & Hsh & Hp & Hrs).
  rewrite (insert_targets h m key value _ _ _ _ Hsh).
  destruct (insert_each_ok h (targets alive p rs) key value)
    as (h' & Hins & Hok & _); [by apply targets_ok|].
  exists h'. split; [done|]. destruct Hwf as [? ? ? Hpn Hrn].
  split; [done..| |].
  - eapply Forall_impl; [done|]. apply Hok.
  - eapply Forall_impl; [done|]. intros l Hl.
    eapply Forall_impl; [done|]. apply Hok.
Qed.

(** Disabling a primary moves no key to another shard and keeps the
    shard's nodes. *)
Lemma shard_of_disable m key idx alive p rs :
  shard_of hasher m key idx alive p rs →
  shard_of hasher (disablePrimary m idx).1 key idx false p rs.
Proof.
  intros (Hidx & Ha & Hp & Hrs). unfold disablePrimary.
  rewrite decide_True by (by eapply lookup_lt_Some).
  split_and!; simpl; [done| |done..].
  apply list_lookup_insert_eq. by eapply lookup_lt_Some.
Qed.
End Router.

(** ** The concrete topologies *)

Ltac nodes_ok :=
  repeat first
    [ apply Forall_nil_2
    | apply Forall_cons_2
    | eexists; split; [reflexivity | split; [apply Inv_new | simpl; lia]] ].

Lemma main_wf : wf main_nodes main_manager.
Proof. split; [simpl; lia | done | simpl; lia | nodes_ok | nodes_ok]. Qed.

Lemma main_no_alias : no_alias main_manager.
Proof. unfold no_alias. simpl. compute_done. Qed.

Lemma one_shard_wf : wf one_shard_nodes one_shard.
Proof. split; [simpl; lia | done | simpl; lia | nodes_ok | nodes_ok]. Qed.

Lemma miss_nodes_insert :
  insert byte_sum one_shard_nodes one_shard "k" MISS = Returns miss_nodes.
Proof. vm_compute. reflexivity. Qed.

Lemma miss_nodes_wf : wf miss_nodes one_shard.
Proof.
  destruct (insert_wf byte_sum one_shard_nodes one_shard "k" MISS one_shard_wf)
    as (h' & Hins & Hwf).
  rewrite miss_nodes_insert in Hins. by injection Hins as <-.
Qed.

Lemma yash_nodes_insert :
  insert byte_sum main_nodes main_manager "user:1" "Yash" = Returns yash_nodes.
Proof. vm_compute. reflexivity. Qed.

Lemma yash_nodes_wf : wf yash_nodes main_manager.
Proof.
  destruct (insert_wf byte_sum main_nodes main_manager "user:1" "Yash" main_wf)
    as (h' & Hins & Hwf).
  rewrite yash_nodes_insert in Hins. by injection Hins as <-.
Qed.

(** ** Claims about the shard manager *)

(** C3. In a well-formed topology, [retrieve] returns for every key.  The
    key has a shard; the answer is the first hit among the nodes asked in
    this order, each as it is when [retrieve] is called: the primary if it
    is alive, then the replicas as registered, a hit being a node-local
    answer other than the miss sentinel.  When the primary is alive and
    hits, its answer is returned and no other node is touched.  When the
    primary is disabled, or alive and answering a local miss, the answer is
    the first hit among the replicas in registered order.  When no node
    hits, the answer is the shard-wide sentinel.  The answer is never
    the node-local miss sentinel, and the two sentinels differ. *)
Theorem retrieve_first_hit (hasher : string → N) (h : gmap ptr CacheNode)
    (m : ShardManager) (key : string) :
  wf h m →
  ∃ idx alive p rs v h',
    shard_of hasher m key idx alive p rs ∧
    retrieve hasher h m key = Returns (v, h') ∧
    first_hit h (targets alive p rs) key = Returns v ∧
    (alive = true → ∀ a, local_answer h p key = Returns a → a ≠ MISS →
       v = a ∧ ∀ q, q ≠ p → h' !! q = h !! q) ∧
    (alive = false ∨ local_answer h p key = Returns MISS →
       first_hit h rs key = Returns v) ∧
    ((∀ q, q ∈ targets alive p rs → local_answer h q key = Returns MISS) →
       v = MISS_DB) ∧
    v ≠ MISS ∧ MISS_DB ≠ MISS.
Proof.
  intros Hwf.
  destruct (shard_of_wf hasher h m key Hwf)
    as (idx & alive & p & rs & Hsh & Hp & Hrs).
  destruct (retrieve_ok hasher h m key idx alive p rs Hsh Hp Hrs)
    as (v & h' & Hr & Hfh & _ & _ & Hhit & _).
  exists idx, alive, p, rs, v, h'. split_and!; [done..| | | | |done].
  - intros Ha a Hla Hne. rewrite local_answer_ok in Hla by done.
    injection Hla as <-. by apply Hhit.
  - unfold targets in Hfh. destruct alive; simpl in Hfh; [|done].
    intros [?|Hmiss]; [done|]. by rewrite Hmiss in Hfh.
  - intros Hall. apply first_hit_all_miss in Hall. congruence.
  - by eapply first_hit_not_miss.
Qed.

Lemma retrieve_first_hit_witness :
  ∃ idx alive p rs v h',
    shard_of byte_sum main_manager "user:1" idx alive p rs ∧
    retrieve byte_sum yash_nodes main_manager "user:1" = Returns (v, h') ∧
    first_hit yash_nodes (targets alive p rs) "user:1" = Returns v ∧
    (alive = true →
     ∀ a, local_answer yash_nodes p "user:1" = Returns a → a ≠ MISS →
       v = a ∧ ∀ q, q ≠ p → h' !! q = yash_nodes !! q) ∧
    (alive = false ∨ local_answer yash_nodes p "user:1" = Returns MISS →
       first_hit yash_nodes rs "user:1" = Returns v) ∧
    ((∀ q, q ∈ targets alive p rs →
        local_answer yash_nodes q "user:1" = Returns MISS) →
       v = MISS_DB) ∧
    v ≠ MISS ∧ MISS_DB ≠ MISS.
Proof. apply retrieve_first_hit, yash_nodes_wf. Defined.

(** C4. In a well-formed topology, [insert] returns for every key and
    value, and it is the write loop over the primary, if alive, followed by
    the replicas as registered: every node of that list holds the pair
    afterwards, the replicas whatever the primary's status, and every node
    outside that list is left as it was.  When no node is registered twice,
    each node of the list took exactly one write: the primary if it is
    alive, every replica in any case; and a primary that is disabled is left
    as it was. *)
Theorem insert_fan_out (hasher : string → N) (h : gmap ptr CacheNode)
    (m : ShardManager) (key value : string) :
  wf h m →
  ∃ idx alive p rs h',
    shard_of hasher m key idx alive p rs ∧
    insert hasher h m key value = Returns h' ∧
    insert_each h (targets alive p rs) key value = Returns h' ∧
    (∀ q, q ∈ targets alive p rs → holds h' q key = Some value) ∧
    (∀ q, q ∉ targets alive p rs → h' !! q = h !! q) ∧
    (no_alias m →
       (alive = true → receives_write h h' p key value) ∧
       (alive = false → h' !! p = h !! p) ∧
       (∀ r, r ∈ rs → receives_write h h' r key value)).
Proof.
  intros Hwf.
  destruct (shard_of_wf hasher h m key Hwf)
    as (idx & alive & p & rs & Hsh & Hp & Hrs).
  destruct (insert_each_ok h (targets alive p rs) key value)
    as (h' & Hins & _ & Hh & Hf & Hw); [by apply targets_ok|].
  exists idx, alive, p, rs, h'.
  rewrite (insert_targets hasher h m key value _ _ _ _ Hsh).
  split_and!; [done..|]. intros Hna.
  pose proof Hsh as (_ & _ & Hpl & Hrl).
  destruct (no_alias_shard m idx p rs Hna Hpl Hrl) as [Hprs Hnd].
  assert (NoDup (targets alive p rs)) as Hndt.
  { destruct alive; simpl; [by apply NoDup_cons | done]. }
  specialize (Hw Hndt). split_and!.
  - intros ->. apply Hw. left.
  - intros ->. by apply Hf.
  - intros r Hr. apply Hw. unfold targets. apply elem_of_app. by right.
Qed.

Lemma insert_fan_out_witness :
  ∃ idx alive p rs h',
    shard_of byte_sum (disablePrimary main_manager 0).1 "user:3" idx alive p rs ∧
    insert byte_sum yash_nodes (disablePrimary main_manager 0).1
      "user:3" "Sudhanshu" = Returns h' ∧
    insert_each yash_nodes (targets alive p rs) "user:3" "Sudhanshu"
      = Returns h' ∧
    (∀ q, q ∈ targets alive p rs → holds h' q "user:3" = Some "Sudhanshu") ∧
    (∀ q, q ∉ targets alive p rs → h' !! q = yash_nodes !! q) ∧
    (no_alias (disablePrimary main_manager 0).1 →
       (alive = true → receives_write yash_nodes h' p "user:3" "Sudhanshu") ∧
       (alive = false → h' !! p = yash_nodes !! p) ∧
       (∀ r, r ∈ rs → receives_write yash_nodes h' r "user:3" "Sudhanshu")).
Proof.
  apply insert_fan_out. destruct yash_nodes_wf as [? ? ? ? ?]. by split.
Defined.

(** Why C4 asks that no node be registered twice for the primary to be left
    alone: a node that is the disabled primary and also a replica of its
    shard is written through the replica list. *)
Example shared_node_is_written :
  wf shared_node shared_manager ∧
  holds shared_node 0 "k" = None ∧
  ∃ h', insert byte_sum shared_node (disablePrimary shared_manager 0).1 "k" "v"
        = Returns h' ∧
        holds h' 0 "k" = Some "v".
Proof.
  split_and!; [|done|].
  - split; [simpl; lia | done | simpl; lia | nodes_ok | nodes_ok].
  - eexists. split; by vm_compute.
Qed.

(** C5, as the code has it.  In a well-formed topology, after
    [disablePrimary idx], [retrieve] of a key of shard [idx] returns the
    first hit among the replicas in registered order, and never the
    node-local miss sentinel.  If some replica holds the key with a value
    other than the text of the miss sentinel, and every replica registered
    before it holds nothing under the key or holds that text, the value of
    that replica is returned.  If no replica holds the key, the shard-wide
    sentinel is returned. *)
Theorem failover_reads_replicas (hasher : string → N)
    (h : gmap ptr CacheNode) (m : ShardManager) (idx : nat) (key : string) :
  wf h m → getShardIndex hasher m key = Returns idx →
  ∃ rs v h',
    replicas m !! idx = Some rs ∧
    primaryStatus (disablePrimary m idx).1 !! idx = Some false ∧
    retrieve hasher h (disablePrimary m idx).1 key = Returns (v, h') ∧
    first_hit h rs key = Returns v ∧
    v ≠ MISS ∧
    (∀ pre r post w,
       rs = pre ++ r :: post →
       (∀ q, q ∈ pre → holds h q key = None ∨ holds h q key = Some MISS) →
       holds h r key = Some w → w ≠ MISS → v = w) ∧
    ((∀ r, r ∈ rs → holds h r key = None) → v = MISS_DB).
Proof.
  intros Hwf Hidx.
  destruct (shard_of_wf hasher h m key Hwf)
    as (idx' & alive & p & rs & Hsh & Hp & Hrs).
  assert (idx' = idx) as -> by (destruct Hsh as [Hi _]; congruence).
  pose proof (shard_of_disable hasher m key idx alive p rs Hsh) as Hsh'.
  destruct (retrieve_ok hasher h _ key idx false p rs Hsh' Hp Hrs)
    as (v & h' & Hr & Hfh & _). unfold targets in Hfh. simpl in Hfh.
  exists rs, v, h'. split_and!; [apply Hsh|apply Hsh'|done|done| | |].
  - by eapply first_hit_not_miss.
  - intros pre r post w -> Hpre Hr' Hw.
    rewrite (first_hit_middle h pre r post key w) in Hfh by done. congruence.
  - intros Hnone. rewrite first_hit_all_miss in Hfh; [congruence|].
    intros q Hq. rewrite local_answer_ok by (by eapply Forall_forall in Hrs).
    by rewrite Hnone.
Qed.

Lemma failover_reads_replicas_witness :
  ∃ rs v h',
    replicas main_manager !! 0 = Some rs ∧
    primaryStatus (disablePrimary main_manager 0).1 !! 0 = Some false ∧
    retrieve byte_sum yash_nodes (disablePrimary main_manager 0).1 "user:1"
      = Returns (v, h') ∧
    first_hit yash_nodes rs "user:1" = Returns v ∧
    v ≠ MISS ∧
    (∀ pre r post w,
       rs = pre ++ r :: post →
       (∀ q, q ∈ pre → holds yash_nodes q "user:1" = None
                       ∨ holds yash_nodes q "user:1" = Some MISS) →
       holds yash_nodes r "user:1" = Some w → w ≠ MISS → v = w) ∧
    ((∀ r, r ∈ rs → holds yash_nodes r "user:1" = None) → v = MISS_DB).
Proof.
  apply failover_reads_replicas; [apply yash_nodes_wf | vm_compute; reflexivity].
Defined.

(** C5, as stated, fails: in the one-shard topology after
    [insert("k", "[MISS]")] both replicas hold ["k"] with the value
    ["[MISS]"], and with the primary disabled [retrieve "k"] returns the
    shard-wide sentinel, not the value held. *)
Lemma failover_as_stated_fails :
  wf miss_nodes one_shard ∧
  getShardIndex byte_sum one_shard "k" = Returns 0 ∧
  replicas one_shard !! 0 = Some [1; 2] ∧
  holds miss_nodes 1 "k" = Some "[MISS]" ∧
  holds miss_nodes 2 "k" = Some "[MISS]" ∧
  fst <$> retrieve byte_sum miss_nodes (disablePrimary one_shard 0).1 "k"
    = Returns MISS_DB ∧
  ¬ failover_as_stated.
Proof.
  split_and!; [apply miss_nodes_wf | by vm_compute..|].
  intros Hclaim.
  destruct (Hclaim byte_sum miss_nodes one_shard 0 "k" [1; 2] miss_nodes_wf)
    as [Hheld _]; [by vm_compute..|].
  destruct (Hheld 1 "[MISS]") as (h' & Hr & _);
    [set_solver | by vm_compute |].
  vm_compute in Hr. discriminate Hr.
Qed.

(** C6 fails on the code.  With no primary registered, [getShardIndex]
    takes the hash modulo zero: its behaviour is undefined, for every key,
    and so is that of [retrieve] and of [insert], which call it first. *)
Theorem getShardIndex_no_primaries (hasher : string → N)
    (h : gmap ptr CacheNode) (key value : string) :
  getShardIndex hasher ShardManager_new key = Undefined ModuloByZero ∧
  ¬ defined (getShardIndex hasher ShardManager_new key) ∧
  retrieve hasher h ShardManager_new key = Undefined ModuloByZero ∧
  insert hasher h ShardManager_new key value = Undefined ModuloByZero.
Proof. split_and!; [done | by intros [] | done | done]. Qed.

(** C8. [disablePrimary idx] with [idx] in range sets the status flag of
    shard [idx] to false and leaves every other flag, the primaries and the
    replica lists as they were; with [idx] out of range it leaves the whole
    manager as it was and writes nothing.  It has no access to the nodes,
    and it always returns. *)
Theorem disablePrimary_effect (m : ShardManager) (idx : nat) :
  (idx < length (primaryStatus m) →
     primaryStatus (disablePrimary m idx).1 !! idx = Some false ∧
     (∀ j, j ≠ idx →
        primaryStatus (disablePrimary m idx).1 !! j = primaryStatus m !! j) ∧
     length (primaryStatus (disablePrimary m idx).1)
       = length (primaryStatus m) ∧
     primaries (disablePrimary m idx).1 = primaries m ∧
     replicas (disablePrimary m idx).1 = replicas m) ∧
  (length (primaryStatus m) ≤ idx → disablePrimary m idx = (m, [])).
Proof.
  unfold disablePrimary. split; intros Hidx.
  - rewrite decide_True by done. simpl. split_and!; [|  |  |done|done].
    + by apply list_lookup_insert_eq.
    + intros j Hj. by apply list_lookup_insert_ne.
    + apply length_insert.
  - rewrite decide_False by lia. done.
Qed.

Lemma disablePrimary_effect_witness :
  (primaryStatus (disablePrimary main_manager 0).1 !! 0 = Some false ∧
   (∀ j, j ≠ 0 →
      primaryStatus (disablePrimary main_manager 0).1 !! j
      = primaryStatus main_manager !! j) ∧
   length (primaryStatus (disablePrimary main_manager 0).1)
     = length (primaryStatus main_manager) ∧
   primaries (disablePrimary main_manager 0).1 = primaries main_manager ∧
   replicas (disablePrimary main_manager 0).1 = replicas main_manager) ∧
  disablePrimary main_manager 2 = (main_manager, []).
Proof.
  split.
  - apply (proj1 (disablePrimary_effect main_manager 0)). simpl. lia.
  - apply (proj2 (disablePrimary_effect main_manager 2)). simpl. lia.
Defined.



(** ** The scenario of [main] *)

Example main_scenario :
  (h ← insert byte_sum main_nodes main_manager "user:1" "Yash";
   h ← insert byte_sum h main_manager "user:2" "Suraj";
   h ← insert byte_sum h main_manager "user:3" "Sudhanshu";
   h ← insert byte_sum h main_manager "user:4" "Dubey";
   '(v1, h) ← retrieve byte_sum h main_manager "user:1";
   '(v2, h) ← retrieve byte_sum h main_manager "user:2";
   '(v3, h) ← retrieve byte_sum h main_manager "user:3";
   '(v4, h) ← retrieve byte_sum h main_manager "user:4";
   '(v5, h) ← retrieve byte_sum h main_manager "user:5";
   idx ← getShardIndex byte_sum main_manager "user:1";
   let '(m, out) := disablePrimary main_manager idx in
   '(v1', h) ← retrieve byte_sum h m "user:1";
   Returns ([v1; v2; v3; v4; v5; v1'], out))
  = Returns (["Yash"; "Suraj"; "Sudhanshu"; "Dubey"; MISS_DB; "Yash"],
             ["[WARNING] Primary shard 0 is DOWN!"]).
Proof. vm_compute. reflexivity. Qed.

(** * Further properties of the code *)

Example setup_main : setup 2 2 3 = ((6, main_nodes), main_manager).
Proof. vm_compute. reflexivity. Qed.

(** ** The store *)

Section StoreMore.
Implicit Types (s : LRUCache) (key value k v : string) (l : list entry).

Lemma list_to_map_spec_drop l k :
  list_to_map (M:=gmap string string) (spec_drop l k)
  = delete k (list_to_map l).
Proof.
  unfold spec_drop. induction l as [|[k' v'] l IH]; simpl.
  - by rewrite delete_empty.
  - destruct (decide (k' = k)) as [->|Hne].
    + rewrite filter_cons_False by (simpl; tauto).
      by rewrite IH, delete_insert_eq.
    + rewrite filter_cons_True by done. simpl.
      by rewrite IH, delete_insert_ne.
Qed.

Lemma keys_middle (l1 l2 : list entry) k v :
  NoDup (l1 ++ (k, v) :: l2).*1 → (k ∉ l1.*1) ∧ (k ∉ l2.*1).
Proof.
  rewrite fmap_app, fmap_cons. simpl.
  intros (_ & H1 & [H2 _]%NoDup_cons)%NoDup_app. split; [|done].
  intros Hin. apply (H1 _ Hin). left.
Qed.

Lemma contents_size s : Inv s → size (contents s) = length (lruList s).
Proof.
  intros [_ Hk _ _]. unfold contents.
  rewrite map_size_list_to_map by done. unfold entries. by rewrite length_fmap.
Qed.

(** The entry at the head is read and written in place. *)
Lemma head_in_place s it key v r :
  Inv s → lruList s = (it, (key, v)) :: r →
  get s key = Returns (v, s) ∧ put s key v = Returns s.
Proof.
  intros [_ _ _ Hi] Hl.
  assert (cacheMap s !! key = Some it) as Hm.
  { apply Hi. exists v. rewrite Hl. left. }
  unfold get, put, splice_front, deref_second, assign_second.
  rewrite Hm, Hl. simpl. rewrite decide_True by done. simpl.
  rewrite decide_True by done. simpl.
  destruct s as [cap l m]. simpl in *. by subst l.
Qed.

Lemma entries_head s key value l :
  entries s = (key, value) :: l →
  ∃ it r, lruList s = (it, (key, value)) :: r.
Proof.
  unfold entries. destruct (lruList s) as [|[it e] r]; simpl; [done|].
  intros [= -> _]. eauto.
Qed.

Lemma put_head s key value :
  Inv s → 0 < capacity s →
  ∃ s' it r, put s key value = Returns s' ∧ Inv s' ∧
    capacity s' = capacity s ∧ lruList s' = (it, (key, value)) :: r.
Proof.
  intros HI Hcap.
  destruct (put_spec s key value HI Hcap) as (s' & Hp & He & Hc & HI').
  assert (∃ l, entries s' = (key, value) :: l) as [l Hl].
  { rewrite He. unfold spec_put. destruct (spec_find _ _); eauto. }
  destruct (entries_head s' key value l Hl) as (it & r & Hr).
  by exists s', it, r.
Qed.
End StoreMore.

(** X1. [get] of a key the store holds returns its value and moves its
    entry to the head of the recency order, the others keeping their order;
    [get] of a key the store does not hold returns the miss sentinel and
    leaves the store as it is. *)
Theorem get_moves_to_front (s : LRUCache) (key : string) :
  Inv s →
  (∀ l1 v l2, entries s = l1 ++ (key, v) :: l2 →
     ∃ s', get s key = Returns (v, s') ∧ entries s' = (key, v) :: l1 ++ l2 ∧
           Inv s') ∧
  (key ∉ (entries s).*1 → get s key = Returns (MISS, s)).
Proof.
  intros HI. split.
  - intros l1 v l2 He.
    destruct (get_spec s key HI) as (s' & Hg & He' & _ & _ & _ & HI').
    destruct (keys_middle l1 l2 key v) as [H1 H2].
    { rewrite <- He. apply HI. }
    rewrite He in Hg, He'. unfold spec_get in Hg, He'.
    rewrite spec_find_middle, spec_drop_middle in * by done. eauto.
  - intros Habs.
    unfold get. destruct (cacheMap s !! key) as [it|] eqn:Hm; [|done].
    destruct (Inv_present _ _ _ HI Hm) as (v & l1 & l2 & Hl & _).
    exfalso. apply Habs. unfold entries. rewrite Hl, !fmap_app, !fmap_cons.
    rewrite elem_of_app, elem_of_cons. simpl. tauto.
Qed.

Lemma get_moves_to_front_witness :
  (∀ l1 v l2, entries store_ab = l1 ++ ("a", v) :: l2 →
     ∃ s', get store_ab "a" = Returns (v, s') ∧
           entries s' = ("a", v) :: l1 ++ l2 ∧ Inv s') ∧
  ("a" ∉ (entries store_ab).*1 → get store_ab "a" = Returns (MISS, store_ab)).
Proof. apply get_moves_to_front, store_ab_Inv. Defined.

(** X2. [put] under a key the store holds replaces the value and moves the
    entry to the head; nothing is evicted, also when the store is full, and
    every other key keeps its value. *)
Theorem put_overwrites (s : LRUCache) (key value : string)
    (l1 l2 : list entry) (old : string) :
  Inv s → entries s = l1 ++ (key, old) :: l2 →
  ∃ s', put s key value = Returns s' ∧
    entries s' = (key, value) :: l1 ++ l2 ∧
    contents s' = <[key := value]> (contents s) ∧
    length (lruList s') = length (lruList s) ∧ Inv s'.
Proof.
  intros HI He.
  assert (0 < capacity s) as Hcap.
  { destruct HI as [Hsz _ _ _]. unfold entries in He.
    apply (f_equal length) in He. rewrite length_fmap, length_app in He.
    simpl in He. lia. }
  destruct (put_spec s key value HI Hcap) as (s' & Hp & He' & _ & HI').
  destruct (keys_middle l1 l2 key old) as [H1 H2].
  { rewrite <- He. apply HI. }
  assert (spec_put (capacity s) (entries s) key value
          = (key, value) :: spec_drop (entries s) key) as Hsp.
  { unfold spec_put. rewrite He. by rewrite spec_find_middle. }
  exists s'. split_and!; [done| | | |done].
  - rewrite He', Hsp, He. by rewrite spec_drop_middle.
  - unfold contents. rewrite He', Hsp. simpl.
    by rewrite list_to_map_spec_drop, insert_delete_eq.
  - assert (length (entries s') = length (entries s)) as Hlen.
    { rewrite He', Hsp, He, spec_drop_middle by done.
      simpl. rewrite !length_app. simpl. lia. }
    unfold entries in Hlen. by rewrite !length_fmap in Hlen.
Qed.

Lemma put_overwrites_witness :
  ∃ s', put store_ab "a" "9" = Returns s' ∧
    entries s' = ("a", "9") :: [("b", "2")] ++ [] ∧
    contents s' = <["a" := "9"]> (contents store_ab) ∧
    length (lruList s') = length (lruList store_ab) ∧ Inv s'.
Proof.
  apply (put_overwrites store_ab "a" "9" [("b", "2")] [] "1");
    [apply store_ab_Inv | reflexivity].
Defined.

Lemma store_full_Inv : Inv store_full.
Proof.
  destruct (run_Inv (LRUCache_new 2) [Put "a" "1"; Put "b" "2"])
    as (s & Hr & _ & HI); [apply Inv_new | simpl; lia |].
  vm_compute in Hr. by injection Hr as <-.
Qed.

(** X3. [put] under a key the store does not hold, with room left, adds the
    entry at the head; nothing is evicted and every other key keeps its
    value. *)
Theorem put_with_room (s : LRUCache) (key value : string) :
  Inv s → key ∉ (entries s).*1 → length (lruList s) < capacity s →
  ∃ s', put s key value = Returns s' ∧
    entries s' = (key, value) :: entries s ∧
    contents s' = <[key := value]> (contents s) ∧ Inv s'.
Proof.
  intros HI Habs Hroom.
  destruct (put_spec s key value HI) as (s' & Hp & He & _ & HI'); [lia|].
  unfold spec_put in He. rewrite spec_find_None in He by done.
  rewrite decide_False in He.
  - exists s'. split_and!; [done..| |done]. unfold contents. by rewrite He.
  - unfold entries. rewrite length_fmap. lia.
Qed.

Lemma put_with_room_witness :
  ∃ s', put store_ab "c" "3" = Returns s' ∧
    entries s' = ("c", "3") :: entries store_ab ∧
    contents s' = <["c" := "3"]> (contents store_ab) ∧ Inv s'.
Proof.
  apply put_with_room; [apply store_ab_Inv | | simpl; lia].
  compute_done.
Defined.

(** X4. [put] under a key the store does not hold, the store being full,
    evicts the entry at the tail of the recency order, and that entry only,
    before it adds the new entry at the head: the evicted key is no longer
    held, every other key keeps its value, and the order of the entries
    kept is unchanged. *)
Theorem put_evicts_tail (s : LRUCache) (key value : string)
    (l0 : list entry) (k_old v_old : string) :
  Inv s → key ∉ (entries s).*1 → capacity s ≤ length (lruList s) →
  entries s = l0 ++ [(k_old, v_old)] →
  ∃ s', put s key value = Returns s' ∧
    entries s' = (key, value) :: l0 ∧
    contents s' = <[key := value]> (delete k_old (contents s)) ∧
    contents s' !! k_old = None ∧
    (∀ k', k' ≠ key → k' ≠ k_old → contents s' !! k' = contents s !! k') ∧
    Inv s'.
Proof.
  intros HI Habs Hfull He.
  assert (length (entries s) = length (lruList s)) as Hlen
    by (unfold entries; by rewrite length_fmap).
  assert (0 < capacity s) as Hcap.
  { destruct HI as [Hsz _ _ _]. rewrite He, length_app in Hlen.
    simpl in Hlen. lia. }
  destruct (put_spec s key value HI Hcap) as (s' & Hp & He' & _ & HI').
  unfold spec_put in He'. rewrite spec_find_None in He' by done.
  rewrite decide_True in He' by lia. rewrite He, removelast_snoc in He'.
  assert ((k_old ∉ l0.*1) ∧ key ≠ k_old) as [Hold Hne].
  { destruct HI as [_ Hk _ _]. rewrite He, fmap_app in Hk, Habs.
    apply NoDup_app in Hk as (_ & Hk & _). simpl in *. split.
    - intros Hin. apply (Hk _ Hin). left.
    - intros ->. apply Habs. apply elem_of_app. right. left. }
  assert (contents s' = <[key := value]> (delete k_old (contents s))) as Hc.
  { unfold contents. rewrite He', He. simpl.
    rewrite list_to_map_snoc by done.
    rewrite delete_insert_id; [done|].
    by apply not_elem_of_list_to_map_1. }
  exists s'. split_and!; [done..| | |done].
  - by rewrite Hc, lookup_insert_ne, lookup_delete_eq.
  - intros k' ? ?. by rewrite Hc, lookup_insert_ne, lookup_delete_ne.
Qed.

Lemma put_evicts_tail_witness :
  ∃ s', put store_full "c" "3" = Returns s' ∧
    entries s' = ("c", "3") :: [("b", "2")] ∧
    contents s' = <["c" := "3"]> (delete "a" (contents store_full)) ∧
    contents s' !! "a" = None ∧
    (∀ k', k' ≠ "c" → k' ≠ "a" →
       contents s' !! k' = contents store_full !! k') ∧
    Inv s'.
Proof.
  apply (put_evicts_tail store_full "c" "3" [("b", "2")] "a" "1");
    [apply store_full_Inv | | simpl; lia | reflexivity].
  compute_done.
Defined.

(** X5. After [put key value], [get key] returns [value], and neither it
    nor a second [put key value] changes the store any further: the entry is
    already at the head. *)
Theorem put_then_get (s : LRUCache) (key value : string) :
  Inv s → 0 < capacity s →
  ∃ s', put s key value = Returns s' ∧
    get s' key = Returns (value, s') ∧
    put s' key value = Returns s'.
Proof.
  intros HI Hcap.
  destruct (put_head s key value HI Hcap) as (s' & it & r & Hp & HI' & _ & Hl).
  destruct (head_in_place s' it key value r HI' Hl) as [Hg Hp'].
  by exists s'.
Qed.

Lemma put_then_get_witness :
  ∃ s', put store_full "c" "[MISS]" = Returns s' ∧
    get s' "c" = Returns ("[MISS]", s') ∧
    put s' "c" "[MISS]" = Returns s'.
Proof. apply put_then_get; [apply store_full_Inv | simpl; lia]. Defined.

(** X6. A second [get] of the same key returns what the first returned and
    leaves the store as the first left it. *)
Theorem get_twice (s : LRUCache) (key : string) :
  Inv s →
  ∃ v s', get s key = Returns (v, s') ∧ get s' key = Returns (v, s').
Proof.
  intros HI. destruct (cacheMap s !! key) as [it|] eqn:Hm.
  - destruct (Inv_present _ _ _ HI Hm) as (v & l1 & l2 & Hl & _ & Hk1 & Hk2).
    destruct (get_spec s key HI) as (s' & Hg & He & _ & _ & _ & HI').
    unfold spec_get, entries in Hg, He. rewrite Hl, fmap_app, fmap_cons in Hg, He.
    simpl in Hg, He. rewrite spec_find_middle in Hg, He by done.
    simpl in Hg, He.
    destruct (entries_head s' key v _ He) as (it' & r & Hr).
    destruct (head_in_place s' it' key v r HI' Hr) as [Hg' _].
    by exists v, s'.
  - exists MISS, s. unfold get. by rewrite Hm.
Qed.

Lemma get_twice_witness :
  ∃ v s', get store_ab "a" = Returns (v, s') ∧ get s' "a" = Returns (v, s').
Proof. apply get_twice, store_ab_Inv. Defined.

Lemma spec_find_Some_split (l : list entry) (k v : string) :
  spec_find l k = Some v →
  ∃ l1 l2, l = l1 ++ (k, v) :: l2 ∧ k ∉ l1.*1.
Proof.
  unfold spec_find. induction l as [|[k' v'] l IH]; simpl; [done|].
  destruct (decide (k' = k)) as [->|Hne]; simpl.
  - intros [= ->]. exists [], l. split; [done|]. apply not_elem_of_nil.
  - destruct (list_find _ l) as [[i [k0 v0]]|] eqn:Hf; simpl; [|done].
    intros [= ->]. destruct IH as (l1 & l2 & -> & Hk); [done|].
    exists ((k', v') :: l1), l2. split; [done|].
    simpl. by apply not_elem_of_cons.
Qed.

Lemma spec_put_length (cap : nat) (l : list entry) (k v : string) :
  NoDup l.*1 → 0 < cap →
  length l ≤ length (spec_put cap l k v).
Proof.
  intros Hnd Hcap. unfold spec_put.
  destruct (spec_find l k) as [v0|] eqn:Hf.
  - apply spec_find_Some_split in Hf as (l1 & l2 & -> & Hk1).
    destruct (keys_middle l1 l2 k v0 Hnd) as [_ Hk2].
    rewrite spec_drop_middle by done. simpl. rewrite !length_app. simpl. lia.
  - simpl. case_decide; [|lia].
    destruct l as [|e l _] using rev_ind; [simpl in *; lia|].
    rewrite removelast_snoc, length_app. simpl. lia.
Qed.

Lemma step_grows (s : LRUCache) (o : op) :
  Inv s → 0 < capacity s →
  ∃ s', step s o = Returns s' ∧ capacity s' = capacity s ∧ Inv s' ∧
        length (lruList s) ≤ length (lruList s').
Proof.
  intros HI Hcap. destruct o as [key|key value]; simpl.
  - destruct (get_spec s key HI) as (s' & -> & _ & Hp & _ & ? & ?).
    exists s'. split_and!; [done..|]. by rewrite Hp.
  - destruct (put_spec s key value HI Hcap) as (s' & -> & He & ? & ?).
    exists s'. split_and!; [done..|].
    rewrite <- !(length_fmap snd (lruList _)).
    fold (entries s) (entries s'). rewrite He.
    apply spec_put_length; [apply HI | done].
Qed.

(** X7. Under any sequence of [get] and [put] the number of entries of a
    store never goes down, and never exceeds the capacity: entries leave
    the store only by eviction, each time making room for a new one. *)
Theorem store_never_shrinks (s : LRUCache) (os : list op) :
  Inv s → 0 < capacity s →
  ∃ s', run s os = Returns s' ∧
    length (lruList s) ≤ length (lruList s') ∧
    length (lruList s') ≤ capacity s.
Proof.
  revert s. induction os as [|o os IH]; intros s HI Hcap; simpl.
  - exists s. split_and!; [done..|]. apply HI.
  - destruct (step_grows s o HI Hcap) as (s1 & -> & Hc1 & HI1 & Hl1). simpl.
    destruct (IH s1 HI1) as (s' & Hr & Hl & Hu); [lia|].
    exists s'. split_and!; [done|lia|lia].
Qed.

Lemma store_never_shrinks_witness :
  ∃ s', run store_full [Get "a"; Put "c" "3"; Put "c" "4"; Get "b"]
        = Returns s' ∧
    length (lruList store_full) ≤ length (lruList s') ∧
    length (lruList s') ≤ capacity store_full.
Proof. apply store_never_shrinks; [apply store_full_Inv | simpl; lia]. Defined.

(** X8. A store of capacity zero holds nothing; every [get] on it answers
    the miss sentinel, and every [put] on it reads the back of an empty
    list, which is undefined. *)
Theorem capacity_zero (s : LRUCache) (key value : string) :
  Inv s → capacity s = 0 →
  lruList s = [] ∧
  get s key = Returns (MISS, s) ∧
  put s key value = Undefined BackOfEmptyList.
Proof.
  intros [Hsz _ _ Hi] Hcap.
  assert (lruList s = []) as Hl.
  { destruct (lruList s); [done | simpl in Hsz; lia]. }
  assert (cacheMap s !! key = None) as Hm.
  { destruct (cacheMap s !! key) as [it|] eqn:Hm; [|done].
    apply Hi in Hm as [v Hin]. rewrite Hl in Hin. by apply elem_of_nil in Hin. }
  unfold get, put. rewrite Hm, Hl, Hcap. done.
Qed.

Lemma capacity_zero_witness :
  lruList (LRUCache_new 0) = [] ∧
  get (LRUCache_new 0) "a" = Returns (MISS, LRUCache_new 0) ∧
  put (LRUCache_new 0) "a" "1" = Undefined BackOfEmptyList.
Proof. apply capacity_zero; [apply Inv_new | reflexivity]. Defined.

(** X9. [get] answers the miss sentinel in two cases only: the key is not
    held, or the value held under it is the text of the sentinel itself. *)
Theorem get_miss_means (s : LRUCache) (key : string) :
  Inv s →
  fst <$> get s key = Returns MISS ↔
  contents s !! key = None ∨ contents s !! key = Some MISS.
Proof.
  intros HI. destruct (get_contents s key HI) as (s' & -> & _). simpl.
  destruct (contents s !! key) as [v|]; simpl.
  - split; [intros [= ->]; by right | by intros [?|[= ->]]].
  - split; [by left | done].
Qed.

Lemma get_miss_means_witness :
  fst <$> get store_ab "c" = Returns MISS ↔
  contents store_ab !! "c" = None ∨ contents store_ab !! "c" = Some MISS.
Proof. apply get_miss_means, store_ab_Inv. Defined.

(** ** The topology of the manager *)

(** X10. [getShardIndex] is undefined exactly when no primary is
    registered; otherwise it returns the hash of the key modulo the number
    of primaries, an index below that number, whatever the status flags and
    the replica lists are. *)
Theorem getShardIndex_in_range (hasher : string → N) (m : ShardManager)
    (key : string) :
  (primaries m = [] →
     getShardIndex hasher m key = Undefined ModuloByZero) ∧
  (primaries m ≠ [] →
     ∃ idx, getShardIndex hasher m key = Returns idx ∧
       idx < length (primaries m) ∧
       N.of_nat idx = (hasher key mod N.of_nat (length (primaries m)))%N).
Proof.
  split; intros Hp.
  - by apply getShardIndex_empty.
  - assert (0 < length (primaries m)) as Hn.
    { destruct (primaries m); [done | simpl; lia]. }
    destruct (getShardIndex_range hasher m key Hn) as (idx & Hidx & Hlt).
    exists idx. split_and!; [done..|].
    unfold getShardIndex in Hidx. rewrite decide_False in Hidx by lia.
    injection Hidx as <-. by rewrite N2Nat.id.
Qed.

Lemma getShardIndex_in_range_witness :
  ∃ idx, getShardIndex byte_sum main_manager "user:2" = Returns idx ∧
    idx < length (primaries main_manager) ∧
    N.of_nat idx
    = (byte_sum "user:2" mod N.of_nat (length (primaries main_manager)))%N.
Proof. by apply (proj2 (getShardIndex_in_range byte_sum main_manager "user:2")). Defined.







(** X13. For [0 <= index < INT_MAX], [registerReplicas index l] makes [l]
    the replica list of shard [index].  The lists of the other shards
    already registered are kept; when [index] is beyond them, the vector
    grows to [index + 1] and the shards in between get the empty list.
    Primaries and status flags are not touched. *)
Theorem registerReplicas_lookup (m : ShardManager) (index : nat)
    (l : list ptr) :
  (Z.of_nat index < INT_MAX)%Z →
  replicas (registerReplicas m index l) !! index = Some l ∧
  (∀ j, j ≠ index → j < length (replicas m) →
     replicas (registerReplicas m index l) !! j = replicas m !! j) ∧
  (∀ j, length (replicas m) ≤ j → j < index →
     replicas (registerReplicas m index l) !! j = Some []) ∧
  length (replicas (registerReplicas m index l))
    = length (replicas m) `max` (index + 1) ∧
  primaries (registerReplicas m index l) = primaries m ∧
  primaryStatus (registerReplicas m index l) = primaryStatus m.
Proof.
  intros _. unfold registerReplicas. simpl.
  destruct (decide (length (replicas m) ≤ index)) as [Hge|Hlt].
  - split_and!; [| | | |done|done].
    + apply list_lookup_insert_eq. rewrite length_resize. lia.
    + intros j Hj Hlen. rewrite list_lookup_insert_ne by done.
      apply lookup_resize; lia.
    + intros j Hlen Hj. rewrite list_lookup_insert_ne by lia.
      rewrite lookup_resize_new by lia. done.
    + rewrite length_insert, length_resize. lia.
  - split_and!; [| | | |done|done].
    + apply list_lookup_insert_eq. lia.
    + intros j Hj Hlen. by rewrite list_lookup_insert_ne.
    + intros j Hlen Hj. lia.
    + rewrite length_insert. lia.
Qed.

Lemma registerReplicas_lookup_witness :
  replicas (registerReplicas one_shard 3 [7; 8]) !! 3 = Some [7; 8] ∧
  (∀ j, j ≠ 3 → j < length (replicas one_shard) →
     replicas (registerReplicas one_shard 3 [7; 8]) !! j
     = replicas one_shard !! j) ∧
  (∀ j, length (replicas one_shard) ≤ j → j < 3 →
     replicas (registerReplicas one_shard 3 [7; 8]) !! j = Some []) ∧
  length (replicas (registerReplicas one_shard 3 [7; 8]))
    = length (replicas one_shard) `max` (3 + 1) ∧
  primaries (registerReplicas one_shard 3 [7; 8]) = primaries one_shard ∧
  primaryStatus (registerReplicas one_shard 3 [7; 8])
    = primaryStatus one_shard.
Proof. apply registerReplicas_lookup. reflexivity. Defined.

(** X14. For [0 <= index < INT_MAX], registering replicas twice for the
    same shard keeps the second list only: the nodes of the first list are
    no longer reached by that shard. *)
Theorem registerReplicas_twice (m : ShardManager) (index : nat)
    (l1 l2 : list ptr) :
  (Z.of_nat index < INT_MAX)%Z →
  registerReplicas (registerReplicas m index l1) index l2
  = registerReplicas m index l2.
Proof.
  intros _. unfold registerReplicas. simpl.
  destruct (decide (length (replicas m) ≤ index)) as [Hge|Hlt].
  - rewrite decide_False by (rewrite length_insert, length_resize; lia).
    by rewrite list_insert_insert_eq.
  - rewrite decide_False by (rewrite length_insert; lia).
    by rewrite list_insert_insert_eq.
Qed.

Lemma registerReplicas_twice_witness :
  registerReplicas (registerReplicas main_manager 1 [4; 5]) 1 [5]
  = registerReplicas main_manager 1 [5].
Proof. apply registerReplicas_twice. reflexivity. Defined.

(** ** Reads and writes through the manager *)

Section RouterMore.
Variable hasher : string → N.
Implicit Types (h : gmap ptr CacheNode) (m : ShardManager).
Implicit Types (p q : ptr) (rs ps : list ptr) (key value : string).

Lemma wf_nodes h h' m :
  (∀ q, node_ok h q → node_ok h' q) → wf h m → wf h' m.
Proof.
  intros Hok [? ? ? Hpn Hrn]. split; [done..| |].
  - eapply Forall_impl; [done|]. apply Hok.
  - eapply Forall_impl; [done|]. intros l Hl.
    eapply Forall_impl; [done|]. apply Hok.
Qed.

Lemma wf_disable h m idx : wf h m → wf h (disablePrimary m idx).1.
Proof.
  intros [? ? ? ? ?]. unfold disablePrimary. case_decide; simpl; [|done].
  split; simpl; [done| |done..]. by rewrite length_insert.
Qed.

Lemma getShardIndex_disable m idx key :
  getShardIndex hasher (disablePrimary m idx).1 key
  = getShardIndex hasher m key.
Proof. unfold disablePrimary. by case_decide. Qed.

Lemma local_answer_local h h' p key :
  h' !! p = h !! p → local_answer h' p key = local_answer h p key.
Proof.
  intros Hsame. unfold local_answer, ptr_retrieve. rewrite Hsame.
  destruct (h !! p) as [n|]; [|done]. simpl.
  by destruct (CacheNode_retrieve n key) as [[v n']|].
Qed.

Lemma first_hit_local h h' ps key :
  (∀ q, q ∈ ps → h' !! q = h !! q) →
  first_hit h' ps key = first_hit h ps key.
Proof.
  induction ps as [|p ps IH]; simpl; intros Hsame; [done|].
  rewrite (local_answer_local h h') by (apply Hsame; left).
  rewrite IH; [done|]. intros q Hq. apply Hsame. by right.
Qed.

Lemma first_hit_head h q ps key v :
  node_ok h q → holds h q key = Some v → v ≠ MISS →
  first_hit h (q :: ps) key = Returns v.
Proof.
  intros Hok Hh Hv. simpl. rewrite local_answer_ok, Hh by done. simpl.
  by rewrite decide_True.
Qed.

Lemma shard_of_inj m key idx alive p rs idx' alive' p' rs' :
  shard_of hasher m key idx alive p rs →
  shard_of hasher m key idx' alive' p' rs' →
  idx' = idx ∧ alive' = alive ∧ p' = p ∧ rs' = rs.
Proof.
  intros (H1 & H2 & H3 & H4) (H1' & H2' & H3' & H4').
  assert (idx' = idx) as -> by congruence. split_and!; congruence.
Qed.

(** A write followed by a read of the same key, on the shard's targets. *)
Lemma insert_retrieve_ok h m key value idx alive p rs :
  wf h m → shard_of hasher m key idx alive p rs →
  ∃ h1 v h2,
    insert hasher h m key value = Returns h1 ∧ wf h1 m ∧
    (∀ q, q ∈ targets alive p rs → holds h1 q key = Some value) ∧
    (∀ q, q ∉ targets alive p rs → h1 !! q = h !! q) ∧
    retrieve hasher h1 m key = Returns (v, h2) ∧
    first_hit h1 (targets alive p rs) key = Returns v.
Proof.
  intros Hwf Hsh.
  destruct (shard_of_wf hasher h m key Hwf)
    as (idx' & alive' & p' & rs' & Hsh' & Hp & Hrs).
  destruct (shard_of_inj _ _ _ _ _ _ _ _ _ _ Hsh Hsh') as (-> & -> & -> & ->).
  destruct (insert_each_ok h (targets alive p rs) key value)
    as (h1 & Hins & Hok & Hh & Hf & _); [by apply targets_ok|].
  assert (Forall (node_ok h1) rs) as Hrs1
    by (eapply Forall_impl; [done|]; apply Hok).
  destruct (retrieve_ok hasher h1 m key idx alive p rs Hsh (Hok _ Hp) Hrs1)
    as (v & h2 & Hr & Hfh & _).
  exists h1, v, h2.
  rewrite (insert_targets hasher h m key value _ _ _ _ Hsh).
  split_and!; [done|by eapply wf_nodes|done..].
Qed.
End RouterMore.

Lemma insert_retrieve_value (hasher : string → N) (h : gmap ptr CacheNode)
    (m : ShardManager) (key value : string)
    (idx : nat) (alive : bool) (p : ptr) (rs : list ptr) :
  wf h m → shard_of hasher m key idx alive p rs →
  value ≠ MISS → alive = true ∨ rs ≠ [] →
  ∃ h1 h2, insert hasher h m key value = Returns h1 ∧
           (∀ q, q ∉ targets alive p rs → h1 !! q = h !! q) ∧
           retrieve hasher h1 m key = Returns (value, h2).
Proof.
  intros Hwf Hsh Hv Hreach.
  destruct (insert_retrieve_ok hasher h m key value idx alive p rs Hwf Hsh)
    as (h1 & v & h2 & Hins & Hwf1 & Hh & Hfr & Hr & Hfh).
  exists h1, h2. split; [done|]. split; [done|].
  destruct (shard_of_wf hasher h1 m key Hwf1)
    as (idx' & alive' & p' & rs' & Hsh' & Hp & Hrs).
  destruct (shard_of_inj _ _ _ _ _ _ _ _ _ _ _ Hsh Hsh') as (-> & -> & -> & ->).
  assert (∃ q ps, targets alive p rs = q :: ps ∧ node_ok h1 q) as (q & ps & Ht & Hq).
  { unfold targets. destruct alive; simpl; [eauto|].
    destruct Hreach as [?|Hne]; [done|]. destruct rs as [|q rs]; [done|].
    apply Forall_cons in Hrs as [? _]. eauto. }
  rewrite Ht in Hfh, Hh.
  rewrite (first_hit_head h1 q ps key value) in Hfh; [congruence|done| |done].
  apply Hh. left.
Qed.

(** X15. In a well-formed topology, a pair whose value is not the text of
    the miss sentinel, written by [insert] to a shard whose primary is
    alive or which has at least one replica, is read back by [retrieve]. *)
Theorem insert_then_retrieve (hasher : string → N) (h : gmap ptr CacheNode)
    (m : ShardManager) (key value : string)
    (idx : nat) (alive : bool) (p : ptr) (rs : list ptr) :
  wf h m → shard_of hasher m key idx alive p rs →
  value ≠ MISS → alive = true ∨ rs ≠ [] →
  ∃ h1 h2, insert hasher h m key value = Returns h1 ∧
           retrieve hasher h1 m key = Returns (value, h2).
Proof.
  intros Hwf Hsh Hv Hreach.
  destruct (insert_retrieve_value hasher h m key value idx alive p rs)
    as (h1 & h2 & ? & _ & ?); eauto.
Qed.

Lemma insert_then_retrieve_witness :
  ∃ h1 h2,
    insert byte_sum yash_nodes (disablePrimary main_manager 0).1
      "user:3" "Sudhanshu" = Returns h1 ∧
    retrieve byte_sum h1 (disablePrimary main_manager 0).1 "user:3"
      = Returns ("Sudhanshu", h2).
Proof.
  apply (insert_then_retrieve byte_sum yash_nodes _ "user:3" "Sudhanshu"
           0 false 0 [1; 2]).
  - apply wf_disable, yash_nodes_wf.
  - by vm_compute.
  - done.
  - by right.
Defined.

(** X16. A shard whose primary is disabled and whose replica list is empty
    stores nothing: [insert] returns and leaves every node as it was, and
    [retrieve] returns the shard-wide sentinel for every key of the shard,
    whatever the disabled primary holds. *)
Theorem disabled_shard_without_replicas (hasher : string → N)
    (h : gmap ptr CacheNode) (m : ShardManager) (key value : string)
    (idx : nat) (p : ptr) :
  shard_of hasher m key idx false p [] →
  insert hasher h m key value = Returns h ∧
  retrieve hasher h m key = Returns (MISS_DB, h).
Proof.
  intros (Hidx & Ha & Hp & Hrs). unfold insert, retrieve, at_.
  rewrite Hidx. simpl. rewrite Ha. simpl. rewrite Hrs. done.
Qed.

Lemma disabled_shard_without_replicas_witness :
  insert byte_sum k_node (disablePrimary lone_primary 0).1 "k" "w"
    = Returns k_node ∧
  retrieve byte_sum k_node (disablePrimary lone_primary 0).1 "k"
    = Returns (MISS_DB, k_node).
Proof.
  apply (disabled_shard_without_replicas byte_sum k_node _ "k" "w" 0 0).
  by vm_compute.
Defined.

(** X17. In a well-formed topology [retrieve] changes no data: every node
    holds afterwards, under every key, what it held before; nodes outside
    the shard of the key are not touched at all; and the topology is still
    well formed. *)
Theorem retrieve_keeps_data (hasher : string → N) (h : gmap ptr CacheNode)
    (m : ShardManager) (key : string) :
  wf h m →
  ∃ idx alive p rs v h',
    shard_of hasher m key idx alive p rs ∧
    retrieve hasher h m key = Returns (v, h') ∧
    (∀ q k, holds h' q k = holds h q k) ∧
    (∀ q, q ≠ p → q ∉ rs → h' !! q = h !! q) ∧
    wf h' m.
Proof.
  intros Hwf.
  destruct (shard_of_wf hasher h m key Hwf)
    as (idx & alive & p & rs & Hsh & Hp & Hrs).
  destruct (retrieve_ok hasher h m key idx alive p rs Hsh Hp Hrs)
    as (v & h' & Hr & _ & Hs & Hf & _).
  exists idx, alive, p, rs, v, h'. split_and!; [done..| |done|].
  - intros q k. apply Hs.
  - eapply wf_nodes; [|done]. intros q. apply Hs.
Qed.

Lemma retrieve_keeps_data_witness :
  ∃ idx alive p rs v h',
    shard_of byte_sum main_manager "user:1" idx alive p rs ∧
    retrieve byte_sum yash_nodes main_manager "user:1" = Returns (v, h') ∧
    (∀ q k, holds h' q k = holds yash_nodes q k) ∧
    (∀ q, q ≠ p → q ∉ rs → h' !! q = yash_nodes !! q) ∧
    wf h' main_manager.
Proof. apply retrieve_keeps_data, yash_nodes_wf. Defined.

Lemma rstep_ok (hasher : string → N) (h : gmap ptr CacheNode)
    (m : ShardManager) (o : rop) :
  wf h m →
  ∃ h' m' v, rstep hasher (h, m) o = Returns (h', m', v) ∧ wf h' m' ∧
    primaries m' = primaries m ∧ replicas m' = replicas m ∧
    v ≠ Some MISS.
Proof.
  intros Hwf. destruct o as [key value|key|idx]; simpl.
  - destruct (insert_wf hasher h m key value Hwf) as (h' & -> & Hwf').
    by exists h', m, None.
  - destruct (shard_of_wf hasher h m key Hwf)
      as (idx & alive & p & rs & Hsh & Hp & Hrs).
    destruct (retrieve_ok hasher h m key idx alive p rs Hsh Hp Hrs)
      as (v & h' & -> & Hfh & Hs & _).
    exists h', m, (Some v). simpl. split_and!; [done| |done..|].
    + eapply wf_nodes; [|done]. intros q. apply Hs.
    + intros [= ->]. by eapply first_hit_not_miss.
  - exists h, (disablePrimary m idx).1, None.
    split_and!; [done|by apply wf_disable| | |done];
      unfold disablePrimary; by case_decide.
Qed.

(** X18. On a well-formed topology no sequence of [insert], [retrieve] and
    [disablePrimary] calls is undefined: every call returns, the topology
    stays well formed with the same primaries and replica lists, and no
    [retrieve] ever returns the node-local miss sentinel. *)
Theorem calls_never_undefined (hasher : string → N)
    (h : gmap ptr CacheNode) (m : ShardManager) (os : list rop) :
  wf h m →
  ∃ h' m' vs, rrun hasher (h, m) os = Returns (h', m', vs) ∧
    wf h' m' ∧ primaries m' = primaries m ∧ replicas m' = replicas m ∧
    Forall (λ v, v ≠ MISS) vs.
Proof.
  revert h m. induction os as [|o os IH]; intros h m Hwf; simpl.
  - exists h, m, []. split_and!; [done..|]. constructor.
  - destruct (rstep_ok hasher h m o Hwf)
      as (h1 & m1 & v & -> & Hwf1 & Hp1 & Hr1 & Hv). simpl.
    destruct (IH h1 m1 Hwf1) as (h' & m' & vs & -> & Hwf' & Hp & Hr & Hvs).
    simpl. eexists h', m', _. split_and!; [done|done|congruence|congruence|].
    destruct v as [v|]; simpl; [|done].
    constructor; [|done]. by intros ->.
Qed.

Lemma calls_never_undefined_witness :
  ∃ h' m' vs,
    rrun byte_sum (main_nodes, main_manager)
      [Insert "user:1" "Yash"; Retrieve "user:1"; Disable 0; Disable 7;
       Insert "user:1" "[MISS]"; Retrieve "user:1"; Retrieve "user:2"]
    = Returns (h', m', vs) ∧
    wf h' m' ∧ primaries m' = primaries main_manager ∧
    replicas m' = replicas main_manager ∧
    Forall (λ v, v ≠ MISS) vs.
Proof. apply calls_never_undefined, main_wf. Defined.

(** X19. When a primary is registered for a shard but [registerReplicas]
    was not called for it or a later shard, [insert] writes the primary, if
    alive, and then indexes the replica vector out of range: it is
    undefined.  [retrieve] returns only if the primary is alive and hits;
    otherwise it indexes the replica vector out of range too. *)
Theorem replicas_not_registered (hasher : string → N)
    (h : gmap ptr CacheNode) (m : ShardManager) (key value : string)
    (idx : nat) (alive : bool) (p : ptr) :
  getShardIndex hasher m key = Returns idx →
  primaryStatus m !! idx = Some alive →
  primaries m !! idx = Some p →
  node_ok h p →
  length (replicas m) ≤ idx →
  insert hasher h m key value = Undefined IndexOutOfRange ∧
  (alive = true → default MISS (holds h p key) ≠ MISS →
     ∃ h', retrieve hasher h m key
           = Returns (default MISS (holds h p key), h')) ∧
  (alive = false ∨ default MISS (holds h p key) = MISS →
     retrieve hasher h m key = Undefined IndexOutOfRange).
Proof.
  intros Hidx Ha Hp Hok Hlen.
  assert (replicas m !! idx = None) as Hrs by (by apply lookup_ge_None_2).
  unfold insert, retrieve, at_. rewrite Hidx. simpl. rewrite Ha. simpl.
  destruct (ptr_insert_ok h p key value Hok) as (h1 & Hins & _).
  destruct (ptr_retrieve_ok h p key Hok) as (h2 & Hget & _).
  destruct alive; simpl; rewrite ?Hp; simpl; rewrite ?Hins, ?Hget; simpl;
    rewrite Hrs; simpl.
  - split_and!; [done| |].
    + intros _ Hhit. rewrite decide_True by done. eauto.
    + intros [?|Hmiss]; [done|]. by rewrite decide_False by (by intros ?).
  - split_and!; [done|done|done].
Qed.

Lemma replicas_not_registered_witness :
  insert byte_sum k_node bare_primary "k" "w" = Undefined IndexOutOfRange ∧
  (true = true → default MISS (holds k_node 0 "k") ≠ MISS →
     ∃ h', retrieve byte_sum k_node bare_primary "k"
           = Returns (default MISS (holds k_node 0 "k"), h')) ∧
  (true = false ∨ default MISS (holds k_node 0 "k") = MISS →
     retrieve byte_sum k_node bare_primary "k" = Undefined IndexOutOfRange).
Proof.
  apply (replicas_not_registered byte_sum k_node bare_primary "k" "w" 0 true 0);
    [done..| |simpl; lia].
  eexists. split; [reflexivity|]. split; [|simpl; lia].
  destruct (put_spec (LRUCache_new 3) "k" "v" (Inv_new 3)) as (s & Hp & _ & _ & HI);
    [simpl; lia|].
  vm_compute in Hp. by injection Hp as <-.
Defined.



Lemma join_disjoint {A} (ls : list (list A)) (i j : nat) (l1 l2 : list A) x :
  NoDup (mjoin ls) → ls !! i = Some l1 → ls !! j = Some l2 → i ≠ j →
  x ∈ l1 → x ∉ l2.
Proof.
  revert i j. induction ls as [|l ls IH]; intros i j Hnd Hi Hj Hij Hx1 Hx2;
    [done|].
  simpl in Hnd. apply NoDup_app in Hnd as (_ & Hdisj & Hnd).
  destruct i as [|i], j as [|j]; simpl in *; simplify_eq.
  - apply (Hdisj x Hx1). apply list_elem_of_join. exists l2.
    split; [done|]. by eapply list_elem_of_lookup_2.
  - apply (Hdisj x Hx2). apply list_elem_of_join. exists l1.
    split; [done|]. by eapply list_elem_of_lookup_2.
  - eapply (IH i j); eauto.
Qed.

Lemma no_alias_shards (m : ShardManager) (i j : nat) (p1 p2 : ptr)
    (rs1 rs2 : list ptr) (a1 a2 : bool) :
  no_alias m → i ≠ j →
  primaries m !! i = Some p1 → replicas m !! i = Some rs1 →
  primaries m !! j = Some p2 → replicas m !! j = Some rs2 →
  ∀ q, q ∈ targets a2 p2 rs2 → q ∉ targets a1 p1 rs1.
Proof.
  intros (Hndp & Hdisj & Hndr)%NoDup_app Hij Hp1 Hr1 Hp2 Hr2 q Hq2 Hq1.
  assert (∀ x l k, replicas m !! k = Some l → x ∈ l → x ∈ mjoin (replicas m))
    as Hjoin.
  { intros x l k Hl Hx. apply list_elem_of_join. exists l.
    split; [done|]. by eapply list_elem_of_lookup_2. }
  assert (q = p2 ∨ q ∈ rs2) as Hq2'.
  { unfold targets in Hq2. destruct a2; simpl in Hq2; [|by right].
    apply elem_of_cons in Hq2. tauto. }
  assert (q = p1 ∨ q ∈ rs1) as Hq1'.
  { unfold targets in Hq1. destruct a1; simpl in Hq1; [|by right].
    apply elem_of_cons in Hq1. tauto. }
  destruct Hq2' as [Hq2'|Hq2'], Hq1' as [Hq1'|Hq1'].
  - apply Hij. apply (NoDup_lookup (primaries m) i j q); [done|congruence..].
  - apply (Hdisj q); [|by apply (Hjoin q rs1 i)].
    apply (list_elem_of_lookup_2 _ j). congruence.
  - apply (Hdisj q); [|by apply (Hjoin q rs2 j)].
    apply (list_elem_of_lookup_2 _ i). congruence.
  - by eapply (join_disjoint (replicas m) i j rs1 rs2 q).
Qed.

(** X21. In a well-formed topology in which no node is registered twice, a
    write to one shard does not change what [retrieve] returns for a key of
    another shard. *)
Theorem shards_are_isolated (hasher : string → N) (h : gmap ptr CacheNode)
    (m : ShardManager) (k1 v1 k2 : string) (i j : nat) :
  wf h m → no_alias m →
  getShardIndex hasher m k1 = Returns i →
  getShardIndex hasher m k2 = Returns j → i ≠ j →
  ∃ h1 v h2 h2',
    insert hasher h m k1 v1 = Returns h1 ∧
    retrieve hasher h m k2 = Returns (v, h2) ∧
    retrieve hasher h1 m k2 = Returns (v, h2').
Proof.
  intros Hwf Hna Hi Hj Hij.
  destruct (shard_of_wf hasher h m k1 Hwf)
    as (i' & a1 & p1 & rs1 & Hsh1 & Hp1 & Hrs1).
  destruct (shard_of_wf hasher h m k2 Hwf)
    as (j' & a2 & p2 & rs2 & Hsh2 & Hp2 & Hrs2).
  assert (i' = i) as -> by (destruct Hsh1; congruence).
  assert (j' = j) as -> by (destruct Hsh2; congruence).
  destruct (insert_retrieve_ok hasher h m k1 v1 i a1 p1 rs1 Hwf Hsh1)
    as (h1 & _ & _ & Hins & Hwf1 & _ & Hf & _).
  destruct (retrieve_ok hasher h m k2 j a2 p2 rs2 Hsh2 Hp2 Hrs2)
    as (v & h2 & Hr & Hfh & _).
  destruct (shard_of_wf hasher h1 m k2 Hwf1)
    as (j' & a2' & p2' & rs2' & Hsh2' & Hp2' & Hrs2').
  destruct (shard_of_inj _ _ _ _ _ _ _ _ _ _ _ Hsh2 Hsh2') as (-> & -> & -> & ->).
  destruct (retrieve_ok hasher h1 m k2 j a2 p2 rs2 Hsh2 Hp2' Hrs2')
    as (v' & h2' & Hr' & Hfh' & _).
  exists h1, v, h2, h2'. split_and!; [done..|].
  rewrite (first_hit_local h h1) in Hfh'; [congruence|].
  intros q Hq. apply Hf.
  destruct Hsh1 as (_ & _ & ? & ?), Hsh2 as (_ & _ & ? & ?).
  by eapply (no_alias_shards m i j p1 p2 rs1 rs2 a1 a2).
Qed.

Lemma shards_are_isolated_witness :
  ∃ h1 v h2 h2',
    insert byte_sum yash_nodes main_manager "user:2" "Suraj" = Returns h1 ∧
    retrieve byte_sum yash_nodes main_manager "user:1" = Returns (v, h2) ∧
    retrieve byte_sum h1 main_manager "user:1" = Returns (v, h2').
Proof.
  apply (shards_are_isolated byte_sum yash_nodes main_manager
           "user:2" "Suraj" "user:1" 1 0);
    [apply yash_nodes_wf | apply main_no_alias | by vm_compute..| lia].
Defined.

(** ** The topology set up by [main] *)

Lemma make_replicas_spec (R cap i next : nat) (h : gmap ptr CacheNode) :
  0 < cap →
  ∃ h', make_replicas R cap i (next, h) = (seq next R, (next + R, h')) ∧
    (∀ q, q < next → h' !! q = h !! q) ∧
    (∀ q, q ∈ seq next R → node_ok h' q).
Proof.
  intros Hcap. induction R as [|R IH].
  - exists h. unfold make_replicas. simpl. rewrite Nat.add_0_r.
    split_and!; [done..|]. by intros q ?%elem_of_nil.
  - destruct IH as (h' & Hm & Hold & Hnew).
    unfold make_replicas in *.
    rewrite !seq_S, foldl_app, Hm, Nat.add_succ_r. simpl.
    eexists. split_and!.
    + done.
    + intros q Hq. rewrite lookup_insert_ne by lia. by apply Hold.
    + intros q Hq. apply elem_of_app in Hq as [Hq|Hq].
      * eapply node_ok_other; [|by apply Hnew].
        apply elem_of_seq in Hq. by rewrite lookup_insert_ne by lia.
      * apply list_elem_of_singleton in Hq as ->. eexists.
        rewrite lookup_insert_eq. split; [done|]. split; [apply Inv_new|done].
Qed.

Lemma registerReplicas_next (m : ShardManager) (l : list ptr) :
  replicas (registerReplicas m (length (replicas m)) l) = replicas m ++ [l].
Proof.
  unfold registerReplicas. simpl. rewrite decide_True by done.
  rewrite resize_ge by lia.
  replace (length (replicas m) + 1 - length (replicas m)) with 1 by lia.
  simpl. rewrite insert_app_r_alt by done.
  by replace (length (replicas m) - length (replicas m)) with 0 by lia.
Qed.

Lemma setup_shard_inv (R cap i : nat)
    (w : nat * gmap ptr CacheNode * ShardManager) :
  0 < cap → setup_inv R i w → setup_inv R (S i) (setup_shard R cap w i).
Proof.
  intros Hcap. destruct w as [[next h] m]. unfold setup_inv.
  intros H. cbn [fst snd] in H.
  destruct H as (Hlp & Hls & Hlr & Hst & Hrl & Hpn & Hrn & Hlt & Hna).
  destruct (make_replicas_spec R cap i (S next)
              (<[next := CacheNode_new ("P" +:+ decimal i) true cap]> h) Hcap)
    as (h' & Hm & Hold & Hnew).
  remember (registerReplicas (registerPrimary m next) i (seq (S next) R))
    as m' eqn:Hm'.
  assert (setup_shard R cap (next, h, m) i = (S next + R, h', m')) as ->.
  { unfold setup_shard, new_CacheNode. cbn [fst snd]. by rewrite Hm, Hm'. }
  cbn [fst snd].
  assert (primaries m' = primaries m ++ [next]) as Hprims by (by subst m').
  assert (primaryStatus m' = primaryStatus m ++ [true]) as Hstat
    by (by subst m').
  assert (replicas m' = replicas m ++ [seq (S next) R]) as Hreps.
  { subst m'. rewrite <- Hlr.
    apply (registerReplicas_next (registerPrimary m next)). }
  unfold no_alias. rewrite Hprims, Hstat, Hreps. clear Hm' Hprims Hstat Hreps.
  assert (∀ q, q < next → node_ok h q → node_ok h' q) as Hkeep.
  { intros q Hq. apply node_ok_other. rewrite Hold by lia.
    by rewrite lookup_insert_ne by lia. }
  assert (node_ok h' next) as Hnext.
  { eexists. rewrite Hold, lookup_insert_eq by lia.
    split; [done|]. split; [apply Inv_new|done]. }
  apply Forall_app in Hlt as [Hltp Hltr].
  assert (mjoin (replicas m ++ [seq (S next) R])
          = mjoin (replicas m) ++ seq (S next) R) as Hjoin.
  { rewrite join_app. simpl. by rewrite app_nil_r. }
  split_and!.
  - rewrite length_app. simpl. lia.
  - rewrite length_app. simpl. lia.
  - rewrite length_app. simpl. lia.
  - apply Forall_app. split; [done|]. by constructor.
  - apply Forall_app. split; [done|]. constructor; [|done]. apply length_seq.
  - apply Forall_app. split; [|by constructor].
    rewrite Forall_forall in Hltp, Hpn. apply Forall_forall. eauto.
  - apply Forall_app. split.
    + rewrite Forall_forall in Hrn. apply Forall_forall. intros l Hl.
      specialize (Hrn l Hl). rewrite Forall_forall in Hrn, Hltr.
      apply Forall_forall. intros q Hq. apply Hkeep; [|by eauto].
      apply Hltr, list_elem_of_join. eauto.
    + constructor; [|done]. by apply Forall_forall.
  - rewrite Hjoin. rewrite Forall_forall in Hltp, Hltr.
    apply Forall_forall. intros q.
    rewrite !elem_of_app, list_elem_of_singleton, elem_of_seq.
    intros [[Hq| ->]|[Hq|Hq]]; [apply Hltp in Hq|..|apply Hltr in Hq|]; lia.
  - unfold no_alias in Hna. rewrite Hjoin.
    assert ((primaries m ++ [next]) ++ mjoin (replicas m) ++ seq (S next) R
            ≡ₚ (primaries m ++ mjoin (replicas m)) ++ seq next (S R)) as ->.
    { simpl. rewrite <- !app_assoc. f_equiv. simpl.
      by rewrite Permutation_middle. }
    apply NoDup_app. split_and!; [done| |apply NoDup_seq].
    intros q Hq. rewrite elem_of_seq.
    rewrite Forall_forall in Hltp, Hltr.
    apply elem_of_app in Hq as [Hq|Hq]; [apply Hltp in Hq|apply Hltr in Hq]; lia.
Qed.

Lemma setup_inv_holds (n R cap : nat) :
  0 < cap → setup_inv R n (setup n R cap).
Proof.
  intros Hcap. induction n as [|n IH].
  - unfold setup, setup_inv, no_alias. simpl.
    split_and!; [done|done|done|constructor..].
  - unfold setup in *. rewrite seq_S, foldl_app. simpl.
    by apply setup_shard_inv.
Qed.

(** X22. The loops of [main], for any number of shards above zero, any
    number of replicas per shard and any capacity above zero, leave a
    well-formed topology in which no node is registered twice: as many
    primaries as shards, all alive, and for every shard a replica list of
    the given length. *)
Theorem setup_is_well_formed (NUM_SHARDS REPLICAS_PER_SHARD CACHE_CAPACITY : nat) :
  0 < NUM_SHARDS → 0 < CACHE_CAPACITY →
  ∃ next h m,
    setup NUM_SHARDS REPLICAS_PER_SHARD CACHE_CAPACITY = (next, h, m) ∧
    wf h m ∧ no_alias m ∧
    length (primaries m) = NUM_SHARDS ∧
    length (replicas m) = NUM_SHARDS ∧
    Forall (λ alive, alive = true) (primaryStatus m) ∧
    Forall (λ l, length l = REPLICAS_PER_SHARD) (replicas m).
Proof.
  intros Hn Hcap.
  pose proof (setup_inv_holds NUM_SHARDS REPLICAS_PER_SHARD CACHE_CAPACITY Hcap)
    as Hinv.
  destruct (setup _ _ _) as [[next h] m]. unfold setup_inv in Hinv.
  cbn [fst snd] in Hinv.
  destruct Hinv as (Hlp & Hls & Hlr & Hst & Hrl & Hpn & Hrn & _ & Hna).
  exists next, h, m. split_and!; [done| |done..].
  split; [lia|lia|lia|done|done].
Qed.

Lemma setup_is_well_formed_witness :
  ∃ next h m,
    setup 2 2 3 = (next, h, m) ∧
    wf h m ∧ no_alias m ∧
    length (primaries m) = 2 ∧
    length (replicas m) = 2 ∧
    Forall (λ alive, alive = true) (primaryStatus m) ∧
    Forall (λ l, length l = 2) (replicas m).
Proof. apply setup_is_well_formed; lia. Defined.

(** ** The API layer *)

(** X23. In a well-formed topology, [insertAPI] of a pair whose value is
    not the text of the miss sentinel, to a shard whose primary is alive or
    which has a replica, prints its request line and ["[200 OK]"]; a
    following [retrieveAPI] of the key prints its request line and the
    value as its result. *)
Theorem api_round_trip (hasher : string → N) (h : gmap ptr CacheNode)
    (m : ShardManager) (key value : string)
    (idx : nat) (alive : bool) (p : ptr) (rs : list ptr) :
  wf h m → shard_of hasher m key idx alive p rs →
  value ≠ MISS → alive = true ∨ rs ≠ [] →
  ∃ h1 h2,
    insertAPI hasher h m key value
    = Returns (h1, ["[API] Inserting key=" +:+ key +:+ ", value=" +:+ value;
                    "[200 OK]"]) ∧
    retrieveAPI hasher h1 m key
    = Returns (h2, ["[API] Retrieving key=" +:+ key; "[Result] " +:+ value]).
Proof.
  intros Hwf Hsh Hv Hreach.
  destruct (insert_retrieve_value hasher h m key value idx alive p rs)
    as (h1 & h2 & Hins & _ & Hr); [done..|].
  exists h1, h2. unfold insertAPI, retrieveAPI. by rewrite Hins, Hr.
Qed.

Lemma api_round_trip_witness :
  ∃ h1 h2,
    insertAPI byte_sum main_nodes main_manager "user:1" "Yash"
    = Returns (h1, ["[API] Inserting key=" +:+ "user:1" +:+ ", value="
                      +:+ "Yash";
                    "[200 OK]"]) ∧
    retrieveAPI byte_sum h1 main_manager "user:1"
    = Returns (h2, ["[API] Retrieving key=" +:+ "user:1";
                    "[Result] " +:+ "Yash"]).
Proof.
  apply (api_round_trip byte_sum main_nodes main_manager "user:1" "Yash"
           0 true 0 [1; 2]);
    [apply main_wf | by vm_compute | done | by left].
Defined.

(** X24. [insertAPI] prints ["[200 OK]"] also when nothing is stored: to a
    shard whose primary is disabled and whose replica list is empty it
    leaves every node as it was, and the following [retrieveAPI] prints the
    shard-wide sentinel as its result. *)
Theorem api_acknowledges_unstored (hasher : string → N)
    (h : gmap ptr CacheNode) (m : ShardManager) (key value : string)
    (idx : nat) (p : ptr) :
  shard_of hasher m key idx false p [] →
  insertAPI hasher h m key value
  = Returns (h, ["[API] Inserting key=" +:+ key +:+ ", value=" +:+ value;
                 "[200 OK]"]) ∧
  retrieveAPI hasher h m key
  = Returns (h, ["[API] Retrieving key=" +:+ key;
                 "[Result] [MISS:DB fallback required]"]).
Proof.
  intros (Hidx & Ha & Hp & Hrs).
  unfold insertAPI, retrieveAPI, insert, retrieve, at_.
  rewrite Hidx. simpl. rewrite Ha. simpl. rewrite Hrs. done.
Qed.

Lemma api_acknowledges_unstored_witness :
  insertAPI byte_sum k_node (disablePrimary lone_primary 0).1 "k" "w"
  = Returns (k_node, ["[API] Inserting key=" +:+ "k" +:+ ", value=" +:+ "w";
                      "[200 OK]"]) ∧
  retrieveAPI byte_sum k_node (disablePrimary lone_primary 0).1 "k"
  = Returns (k_node, ["[API] Retrieving key=" +:+ "k";
                      "[Result] [MISS:DB fallback required]"]).
Proof.
  apply (api_acknowledges_unstored byte_sum k_node _ "k" "w" 0 0).
  by vm_compute.
Defined.

(** X25. [disablePrimary] keeps a well-formed topology well formed and
    sends every key to the shard it went to before; calling it a second
    time on the same shard changes nothing more. *)
Theorem disablePrimary_keeps_routing (hasher : string → N)
    (h : gmap ptr CacheNode) (m : ShardManager) (idx : nat) :
  wf h m →
  wf h (disablePrimary m idx).1 ∧
  (∀ key, getShardIndex hasher (disablePrimary m idx).1 key
          = getShardIndex hasher m key) ∧
  (disablePrimary (disablePrimary m idx).1 idx).1 = (disablePrimary m idx).1.
Proof.
  intros Hwf. split_and!.
  - by apply wf_disable.
  - intros key. apply getShardIndex_disable.
  - unfold disablePrimary.
    destruct (decide (idx < length (primaryStatus m))) as [Hlt|Hge]; simpl.
    + rewrite decide_True by (by rewrite length_insert). simpl.
      by rewrite list_insert_insert_eq.
    + by rewrite decide_False.
Qed.

Lemma disablePrimary_keeps_routing_witness :
  wf yash_nodes (disablePrimary main_manager 1).1 ∧
  (∀ key, getShardIndex byte_sum (disablePrimary main_manager 1).1 key
          = getShardIndex byte_sum main_manager key) ∧
  (disablePrimary (disablePrimary main_manager 1).1 1).1
  = (disablePrimary main_manager 1).1.
Proof. apply disablePrimary_keeps_routing, yash_nodes_wf. Defined.
